(** * Divergence-driven zeroth-order fine-tuning (large_models/trainer.py)

    A shallow embedding of the zeroth-order estimator of [OurTrainer]
    ([zo_perturb_parameters], [zo_step], [zo_update]), of the NaN/Inf filter
    of the training loop, and of the trust-region projection of [DiZO]
    ([apply_constraints], [reverse_constraints], [_project_ratio],
    [perturb_gamma], [zo_forward]) with its driver [dizo_trainer]; and,
    around them, of the constructor and the first-order path of the trust
    region ([create_contraint], [forward], [dizo_iters]), of the set-up
    arithmetic and the parameter selection of [_inner_training_loop], and of
    the label masking of [forward_wrap_with_option_len].

    Tensor entries are real numbers: every statement below is a statement of
    exact arithmetic about the formulas the Python code evaluates in floating
    point.  A tensor is kept as the list of its slices along the leading
    dimension, each slice flattened, which is all the code distinguishes
    (the "MARS" norm sums over every dimension but the first). *)

From Stdlib Require Import Reals Lra Lia List ZArith Bool QArith Qround.
From stdpp Require Import gmap strings.
Import ListNotations.

Local Open Scope R_scope.

(** ** Exceptions and results *)

Inductive exn : Type :=
  | AssertionError
  | StopIteration
  | KeyError
  | IndexError
  | TypeError.

(** A call either returns a value or raises.  What a raising call has done
    to the objects it mutates by then is not kept, except by
    [MeZO.outcome]. *)
Inductive result (A : Type) : Type :=
  | Ok (a : A)
  | Raise (e : exn).
Arguments Ok {A} a.
Arguments Raise {A} e.

#[global] Instance result_ret : MRet result := fun A a => Ok a.
#[global] Instance result_bind : MBind result := fun A B k r =>
  match r with
  | Ok a => k a
  | Raise e => Raise e
  end.

(** ** Python's [sub in s] on strings *)

Fixpoint contains (sub s : string) : bool :=
  String.prefix sub s ||
  match s with
  | EmptyString => false
  | String _ s' => contains sub s'
  end.

(** ** Tensors *)

Module Tensor.

Definition row := list R.
Definition tensor := list row.

Definition shape (t : tensor) : list nat := map (@length R) t.

Fixpoint map2 {A B C : Type} (f : A -> B -> C) (xs : list A) (ys : list B)
  : list C :=
  match xs, ys with
  | x :: xs', y :: ys' => f x y :: map2 f xs' ys'
  | _, _ => []
  end.

(** Elementwise operations; operands have the same shape wherever the
    trainer uses them. *)
Definition tadd (a b : tensor) : tensor := map2 (map2 Rplus) a b.
Definition tsub (a b : tensor) : tensor := map2 (map2 Rminus) a b.
(** [c * t] and [t * c] for a Python scalar [c]. *)
Definition smul (c : R) (t : tensor) : tensor := map (map (Rmult c)) t.
Definition muls (t : tensor) (c : R) : tensor :=
  map (map (fun x => x * c)) t.
Definition divs (t : tensor) (c : R) : tensor :=
  map (map (fun x => x / c)) t.
(** [t * v] and [t / v] for [v] of shape [rows, 1, ..., 1]. *)
Definition mul_rows (t : tensor) (v : list R) : tensor :=
  map2 (fun r c => map (fun x => x * c) r) t v.
Definition div_rows (t : tensor) (v : list R) : tensor :=
  map2 (fun r c => map (fun x => x / c) r) t v.

Definition rsum (r : row) : R := fold_right Rplus 0 r.

(** [torch.norm(t)]: the Euclidean norm of all the entries. *)
Definition sumsq (t : tensor) : R :=
  rsum (map (fun r => rsum (map (fun x => x * x) r)) t).
Definition l2norm (t : tensor) : R := sqrt (sumsq t).

(** [torch.sum(torch.abs(t), dim=tuple(range(1, t.dim())), keepdim=True)]. *)
Definition mars_norm (t : tensor) : list R :=
  map (fun r => rsum (map Rabs r)) t.

End Tensor.
Import Tensor.

(** ** Parameters and the environment of the trainer *)

(** An [nn.Parameter]: its [data] and its [requires_grad] flag.  A model is
    what [named_parameters()] enumerates, names being unique. *)
Record parameter : Type := {
  data : tensor;
  requires_grad : bool
}.

Definition set_data (p : parameter) (d : tensor) : parameter :=
  {| data := d; requires_grad := requires_grad p |}.

Definition set_requires_grad (p : parameter) (b : bool) : parameter :=
  {| data := data p; requires_grad := b |}.

Definition model := list (string * parameter).

(** [m.parameters()] *)
Definition parameters (m : model) : list parameter := map snd m.

(** [name in names] *)
Definition mem (name : string) (names : list string) : bool :=
  existsb (String.eqb name) names.

(** The global torch generator: [torch.manual_seed], [torch.normal] with an
    explicit [size] (here the shape of the tensor asked for), and
    [torch.normal(0, 1, size=(1,))] read as the scalar it holds. *)
Class TorchRandom : Type := {
  gen : Type;
  manual_seed : Z -> gen;
  normal : list nat -> gen -> tensor * gen;
  normal1 : gen -> R * gen
}.

(** [torch.normal] returns a tensor of the size it was asked for. *)
Class TorchRandomSized (T : TorchRandom) : Prop := {
  normal_shape : forall sh g, shape (fst (normal sh g)) = sh
}.

(** The global numpy generator: [np.random.randint]. *)
Class NumpyRandom : Type := {
  np_gen : Type;
  randint : Z -> np_gen -> Z * np_gen
}.

(** The loss [forward_wrap_with_option_len] computes for a model on a batch,
    in eval mode and without gradients; it reads the [data] of the
    parameters it is given, the rest of the network being fixed. *)
Class Objective : Type := {
  batch : Type;
  forward_loss : model -> batch -> R
}.

(** ** The zeroth-order estimator of [OurTrainer] *)

Module MeZO.

(** Ghost log of what a call did to the model: an in-place perturbation
    with a scaling factor, a forward evaluation, a backward pass. *)
Inductive event : Type :=
  | Perturb (scaling_factor : R)
  | Forward
  | Backward.

Record TrainingArguments : Type := {
  zo_eps : R;
  weight_decay : R;
  gradient_accumulation_steps : Z
}.

Section Estimator.

Context {TR : TorchRandom} {NP : NumpyRandom} {OBJ : Objective}.

Record trainer : Type := {
  args : TrainingArguments;
  named_parameters_to_optim : model;
  torch_rng : gen;
  np_rng : np_gen;
  zo_random_seed : Z;
  projected_grad : R;
  (** the value [_get_learning_rate()] returns *)
  learning_rate : R;
  trace : list event
}.

Definition with_params (self : trainer) (ps : model) (g : gen)
    (ev : list event) : trainer :=
  {| args := args self;
     named_parameters_to_optim := ps;
     torch_rng := g;
     np_rng := np_rng self;
     zo_random_seed := zo_random_seed self;
     projected_grad := projected_grad self;
     learning_rate := learning_rate self;
     trace := trace self ++ ev |}.

Definition with_seed (self : trainer) (seed : Z) (n : np_gen) : trainer :=
  {| args := args self;
     named_parameters_to_optim := named_parameters_to_optim self;
     torch_rng := torch_rng self;
     np_rng := n;
     zo_random_seed := seed;
     projected_grad := projected_grad self;
     learning_rate := learning_rate self;
     trace := trace self |}.

Definition with_grad (self : trainer) (g : R) : trainer :=
  {| args := args self;
     named_parameters_to_optim := named_parameters_to_optim self;
     torch_rng := torch_rng self;
     np_rng := np_rng self;
     zo_random_seed := zo_random_seed self;
     projected_grad := g;
     learning_rate := learning_rate self;
     trace := trace self |}.

(** [param.data + scaling_factor * z * self.args.zo_eps] *)
Definition perturbed (eps scaling_factor : R) (param z : tensor)
  : tensor :=
  tadd param (muls (smul scaling_factor z) eps).

(** The loop of [zo_perturb_parameters]; the drawn [z] are returned too,
    in drawing order. *)
Fixpoint perturb_loop (eps scaling_factor : R) (params : model) (g : gen)
  : model * list tensor * gen :=
  match params with
  | [] => ([], [], g)
  | (name, param) :: rest =>
      let (z, g1) := normal (shape (data param)) g in
      let '(rest', zs, g2) := perturb_loop eps scaling_factor rest g1 in
      ((name, set_data param (perturbed eps scaling_factor (data param) z))
         :: rest',
       z :: zs, g2)
  end.

Definition seed_used (random_seed : option Z) (self : trainer) : Z :=
  match random_seed with
  | Some s => s
  | None => zo_random_seed self
  end.

Definition zo_perturb_parameters (random_seed : option Z)
    (scaling_factor : R) (self : trainer) : trainer :=
  let g := manual_seed (seed_used random_seed self) in
  let '(ps, _, g') :=
    perturb_loop (zo_eps (args self)) scaling_factor
      (named_parameters_to_optim self) g in
  with_params self ps g' [Perturb scaling_factor].

(** The noise tensors one call of [zo_perturb_parameters] draws. *)
Definition perturb_noise (random_seed : option Z) (scaling_factor : R)
    (self : trainer) : list tensor :=
  snd (fst (perturb_loop (zo_eps (args self)) scaling_factor
              (named_parameters_to_optim self)
              (manual_seed (seed_used random_seed self)))).

Definition zo_forward (self : trainer) (inputs : batch) : R * trainer :=
  (forward_loss (named_parameters_to_optim self) inputs,
   with_params self (named_parameters_to_optim self) (torch_rng self)
     [Forward]).

Inductive outcome : Type :=
  | Returned (loss : R) (self : trainer)
  | Raised (e : exn) (self : trainer).

Definition zo_step (self : trainer) (inputs : batch) : outcome :=
  let (seed, n) := randint 1000000000 (np_rng self) in
  let self := with_seed self seed n in
  let self := zo_perturb_parameters None 1 self in
  let (loss1, self) := zo_forward self inputs in
  let self := zo_perturb_parameters None (-2) self in
  let (loss2, self) := zo_forward self inputs in
  let self :=
    with_grad self ((loss1 - loss2) / (2 * zo_eps (args self))) in
  if (gradient_accumulation_steps (args self) =? 1)%Z then
    let self := zo_perturb_parameters None 1 self in
    Returned loss1 self
  else Raised AssertionError self.

(** Parameters whose name has none of the three patterns get weight
    decay. *)
Definition decayed (name : string) : bool :=
  negb (contains "bias" name) && negb (contains "layer_norm" name)
  && negb (contains "layernorm" name).

Definition update_param (lr pg wd : R) (name : string) (param z : tensor)
  : tensor :=
  if decayed name
  then tsub param (smul lr (tadd (smul pg z) (smul wd param)))
  else tsub param (smul lr (smul pg z)).

(** The parameter loop of [zo_update] (the trust-region cadence that
    follows it in the source is [DiZO.dizo_zo_iters] below). *)
Fixpoint update_loop (lr pg wd : R) (params : model) (g : gen)
  : model * list tensor * gen :=
  match params with
  | [] => ([], [], g)
  | (name, param) :: rest =>
      let (z, g1) := normal (shape (data param)) g in
      let '(rest', zs, g2) := update_loop lr pg wd rest g1 in
      ((name, set_data param (update_param lr pg wd name (data param) z))
         :: rest',
       z :: zs, g2)
  end.

Definition zo_update (self : trainer) : trainer :=
  let g := manual_seed (zo_random_seed self) in
  let '(ps, _, g') :=
    update_loop (learning_rate self) (projected_grad self)
      (weight_decay (args self)) (named_parameters_to_optim self) g in
  with_params self ps g' [].

(** The noise tensors [zo_update] redraws. *)
Definition update_noise (self : trainer) : list tensor :=
  snd (fst (update_loop (learning_rate self) (projected_grad self)
              (weight_decay (args self)) (named_parameters_to_optim self)
              (manual_seed (zo_random_seed self)))).

(** The sequence of [torch.normal] calls for a list of sizes. *)
Fixpoint draws (sizes : list (list nat)) (g : gen) : list tensor * gen :=
  match sizes with
  | [] => ([], g)
  | sh :: rest =>
      let (z, g1) := normal sh g in
      let (zs, g2) := draws rest g1 in
      (z :: zs, g2)
  end.

Definition sizes (params : model) : list (list nat) :=
  map (fun p => shape (data (snd p))) params.

(** The parameters shifted by [c * eps * z], [z] taken from a list. *)
Definition shifted (eps c : R) (ps : model) (zs : list tensor) : model :=
  Tensor.map2
    (fun (np : string * parameter) z =>
       (fst np, set_data (snd np) (perturbed eps c (data (snd np)) z)))
    ps zs.

(** The parameters after the update rule, [z] taken from a list. *)
Definition updated (lr pg wd : R) (ps : model) (zs : list tensor) : model :=
  Tensor.map2
    (fun (np : string * parameter) z =>
       (fst np,
        set_data (snd np)
          (if decayed (fst np)
           then tsub (data (snd np))
                  (smul lr (tadd (smul pg z) (smul wd (data (snd np)))))
           else tsub (data (snd np)) (smul lr (smul pg z)))))
    ps zs.

Definition forward_passes (tr : list event) : nat :=
  length
    (List.filter
       (fun e => match e with Forward => true | _ => false end) tr).


End Estimator.

Arguments trainer {TR NP}.
Arguments outcome {TR NP}.

End MeZO.

(** ** The NaN/Inf filter of [_inner_training_loop] *)

Module Loop.

(** A loss as the loop holds it: a real number or one of the three special
    floating-point values. *)
Inductive fval : Type :=
  | Finite (x : R)
  | PInf
  | NInf
  | NaN.

(** [torch.isnan], [torch.isinf] *)
Definition isnan (v : fval) : bool :=
  match v with NaN => true | _ => false end.
Definition isinf (v : fval) : bool :=
  match v with PInf | NInf => true | _ => false end.

Definition fadd (a b : fval) : fval :=
  match a, b with
  | NaN, _ | _, NaN => NaN
  | PInf, NInf | NInf, PInf => NaN
  | PInf, _ | _, PInf => PInf
  | NInf, _ | _, NInf => NInf
  | Finite x, Finite y => Finite (x + y)
  end.

(** Division of a loss by a Python integer. *)
Definition fdiv_int (a : fval) (k : Z) : fval :=
  match a with
  | NaN => NaN
  | PInf => if (k <? 0)%Z then NInf else PInf
  | NInf => if (k <? 0)%Z then PInf else NInf
  | Finite x =>
      if (k =? 0)%Z then
        if Rlt_dec 0 x then PInf
        else if Rlt_dec x 0 then NInf else NaN
      else Finite (x / IZR k)
  end.

Record loop_state : Type := {
  tr_loss : fval;
  global_step : Z;
  _globalstep_last_logged : Z
}.

(** Lines 977-985: what is added to [tr_loss] after a step returned
    [tr_loss_step]. *)
Definition accumulate_loss (logging_nan_inf_filter : bool)
    (is_torch_tpu_available : bool) (st : loop_state) (tr_loss_step : fval)
  : loop_state :=
  let tr_loss' :=
    if logging_nan_inf_filter && negb is_torch_tpu_available
       && (isnan tr_loss_step || isinf tr_loss_step)
    then
      fadd (tr_loss st)
        (fdiv_int (tr_loss st)
           (1 + global_step st - _globalstep_last_logged st))
    else fadd (tr_loss st) tr_loss_step in
  {| tr_loss := tr_loss';
     global_step := global_step st;
     _globalstep_last_logged := _globalstep_last_logged st |}.

End Loop.

(** ** The trust region: [DiZO] and [dizo_trainer] *)

Module DiZO.

(** A projection ratio: one scalar in the l2 mode, one entry per slice of
    the leading dimension otherwise. *)
Inductive ratio : Type :=
  | Scalar (a : R)
  | PerRow (a : list R).

Definition mul_ratio (t : tensor) (al : ratio) : tensor :=
  match al with
  | Scalar a => muls t a
  | PerRow v => mul_rows t v
  end.

Definition div_ratio (t : tensor) (al : ratio) : tensor :=
  match al with
  | Scalar a => divs t a
  | PerRow v => div_rows t v
  end.

Record dizo : Type := {
  norm_mode : string;
  exclude_list : list string;
  constraints_name : list string;
  (** the radii, an [nn.ParameterList] of scalars *)
  constraints : list R;
  id_name_map : gmap nat string;
  init : bool;
  alpha : gmap string ratio;
  include_list : list string
}.

Definition with_constraints (self : dizo) (cs : list R) : dizo :=
  {| norm_mode := norm_mode self;
     exclude_list := exclude_list self;
     constraints_name := constraints_name self;
     constraints := cs;
     id_name_map := id_name_map self;
     init := init self;
     alpha := alpha self;
     include_list := include_list self |}.

Definition with_init (self : dizo) (b : bool) : dizo :=
  {| norm_mode := norm_mode self;
     exclude_list := exclude_list self;
     constraints_name := constraints_name self;
     constraints := constraints self;
     id_name_map := id_name_map self;
     init := b;
     alpha := alpha self;
     include_list := include_list self |}.

Definition with_cache (self : dizo) (al : gmap string ratio)
    (incl : list string) : dizo :=
  {| norm_mode := norm_mode self;
     exclude_list := exclude_list self;
     constraints_name := constraints_name self;
     constraints := constraints self;
     id_name_map := id_name_map self;
     init := init self;
     alpha := al;
     include_list := incl |}.

(** [create_contraint]: one radius, initially 0, per trainable parameter
    of the base model that is not excluded. *)
Fixpoint create_contraint (exclude : list string) (m : model)
    (names : list string) (cs : list R) (ids : gmap nat string)
  : list string * list R * gmap nat string :=
  match m with
  | [] => (names, cs, ids)
  | (name, para) :: rest =>
      if negb (mem name exclude) && requires_grad para then
        let names' := names ++ [name] in
        create_contraint exclude rest names' (cs ++ [0])
          (<[(length names' - 1)%nat := name]> ids)
      else create_contraint exclude rest names cs ids
  end.

(** [DiZO.__init__] *)
Definition new_dizo (m : model) (mode : string) (exclude : list string)
  : dizo :=
  let '(names, cs, ids) := create_contraint exclude m [] [] ∅ in
  {| norm_mode := mode;
     exclude_list := exclude;
     constraints_name := names;
     constraints := cs;
     id_name_map := ids;
     init := true;
     alpha := ∅;
     include_list := [] |}.

Definition _project_ratio (self : dizo) (new anchor : tensor)
    (constraint_iterator : list R) : result (ratio * list R) :=
  let t := tsub new anchor in
  let norms :=
    if contains "l2" (norm_mode self)
    then inl (l2norm t)
    else inr (mars_norm t) in
  match constraint_iterator with
  | [] => Raise StopIteration
  | constraint :: it =>
      match norms with
      | inl n => Ok (Scalar (constraint / (n + 1e-8)), it)
      | inr ns => Ok (PerRow (map (fun n => constraint / (n + 1e-8)) ns), it)
      end
  end.

(** The loop of [apply_constraints] over
    [zip(new.named_parameters(), pre_trained.parameters())]. *)
Fixpoint apply_loop (self : dizo) (new : model) (anchors : list parameter)
    (constraint_iterator : list R) (apply : bool)
  : result (dizo * model * list R) :=
  match new, anchors with
  | (name, new_para) :: new', anchor_para :: anchors' =>
      let new_para := set_requires_grad new_para false in
      if negb (mem name (exclude_list self)) then
        '(al, it) ← _project_ratio self (data new_para) (data anchor_para)
                      constraint_iterator;
        let self := with_cache self (<[name := al]> (alpha self))
                      (include_list self ++ [name]) in
        let v := mul_ratio (tsub (data new_para) (data anchor_para)) al in
        let temp := tadd v (data anchor_para) in
        let new_para :=
          if apply then set_data new_para temp
          else set_data new_para temp in
        '(self, rest, it) ← apply_loop self new' anchors' it apply;
        Ok (self, (name, new_para) :: rest, it)
      else
        '(self, rest, it) ←
          apply_loop self new' anchors' constraint_iterator apply;
        Ok (self, (name, new_para) :: rest, it)
  | _, _ => Ok (self, new, constraint_iterator)
  end.

Definition apply_constraints (self : dizo) (new pre_trained : model)
    (constraint_iterator : list R) (apply see : bool)
  : result (dizo * model * list R) :=
  let self := with_cache self ∅ [] in
  apply_loop self new (parameters pre_trained) constraint_iterator apply.

Fixpoint reverse_loop (self : dizo) (new : model) (anchors : list parameter)
  : result model :=
  match new, anchors with
  | (name, new_para) :: new', anchor_para :: anchors' =>
      let new_para := set_requires_grad new_para false in
      if negb (mem name (exclude_list self)) then
        match alpha self !! name with
        | None => Raise KeyError
        | Some al =>
            let v :=
              div_ratio (tsub (data new_para) (data anchor_para)) al in
            let temp := tadd v (data anchor_para) in
            rest ← reverse_loop self new' anchors';
            Ok ((name, set_data new_para temp) :: rest)
        end
      else
        rest ← reverse_loop self new' anchors';
        Ok ((name, new_para) :: rest)
  | _, _ => Ok new
  end.

Definition reverse_constraints (self : dizo) (new pre_trained : model)
  : result model :=
  reverse_loop self new (parameters pre_trained).

Section Adaptation.

Context {TR : TorchRandom} {OBJ : Objective}.

(** The loop of [perturb_gamma] over
    [enumerate(self.constraints.named_parameters())]; a radius is named
    by its index, which is the key of [zs]. *)
Fixpoint perturb_gamma_loop (delta : R) (ts : list R) (pre : bool)
    (i : nat) (gammas : list R) (zs : gmap nat R) (g : gen)
  : result (list R * gmap nat R * gen) :=
  match gammas with
  | [] => Ok ([], zs, g)
  | gamma :: rest =>
      '(z, zs, g) ←
        (if negb pre then
           match ts !! i with
           | None => Raise IndexError
           | Some t =>
               let (n, g1) := normal1 g in
               let z := t * n in
               Ok (z, <[i := z]> zs, g1)
           end
         else
           match zs !! i with
           | None => Raise KeyError
           | Some z => Ok (z, zs, g)
           end);
      let gamma := gamma + delta * z * 0.2 in
      '(rest, zs, g) ← perturb_gamma_loop delta ts pre (S i) rest zs g;
      Ok (gamma :: rest, zs, g)
  end.

Definition perturb_gamma (self : dizo) (delta : R) (ts : list R)
    (zs : option (gmap nat R)) (g : gen)
  : result (dizo * gmap nat R * gen) :=
  let '(pre, zs) :=
    match zs with
    | None => (false, ∅)
    | Some zs => (true, zs)
    end in
  '(cs, zs, g) ←
    perturb_gamma_loop delta ts pre 0 (constraints self) zs g;
  Ok (with_constraints self cs, zs, g).

(** The norms [ts] of [zo_forward]: [torch.norm(para.data - anchor.data)]
    for the parameters that are not excluded. *)
Fixpoint deviation_norms (exclude : list string) (new : model)
    (anchors : list parameter) : list R :=
  match new, anchors with
  | (name, para) :: new', anchor :: anchors' =>
      if negb (mem name exclude)
      then l2norm (tsub (data para) (data anchor))
             :: deviation_norms exclude new' anchors'
      else deviation_norms exclude new' anchors'
  | _, _ => []
  end.

(** [for i, (name, gamma) in enumerate(...): gamma.data = ts[i]] *)
Fixpoint init_gammas (ts : list R) (i : nat) (gammas : list R)
  : result (list R) :=
  match gammas with
  | [] => Ok []
  | _ :: rest =>
      match ts !! i with
      | None => Raise IndexError
      | Some t =>
          rest ← init_gammas ts (S i) rest;
          Ok (t :: rest)
      end
  end.

(** [torch.clip(x, lo, hi)] *)
Definition clip (x lo hi : R) : R := Rmin (Rmax x lo) hi.

(** The last loop of [zo_forward]: the clipped step on every radius. *)
Fixpoint update_gammas (grad tau : R) (ts : list R) (zs : gmap nat R)
    (i : nat) (gammas : list R) : result (list R) :=
  match gammas with
  | [] => Ok []
  | gamma :: rest =>
      match zs !! i with
      | None => Raise KeyError
      | Some z =>
          match ts !! i with
          | None => Raise IndexError
          | Some t =>
              let gamma :=
                clip (gamma - 10 * grad * z) ((1 - tau) * t)
                  ((1 + tau) * t) in
              rest ← update_gammas grad tau ts zs (S i) rest;
              Ok (gamma :: rest)
          end
      end
  end.

(** [forward_wrap_with_option_len(new, **x, return_dict=True).loss];
    unpacking [x = None] is a type error. *)
Definition loss_on (new : model) (x : option batch) : result R :=
  match x with
  | Some b => Ok (forward_loss new b)
  | None => Raise TypeError
  end.

(** The body of [zo_forward] without [apply], past the initialisation of
    the radii: the two projected evaluations around the radii and the
    clipped step, [ts] being the norms computed on entry. *)
Definition zo_probe (self : dizo) (ts : list R) (new pre_trained : model)
    (x : option batch) (g : gen) : result (dizo * model * gen) :=
  '(self, zs, g) ← perturb_gamma self 1 ts None g;
  let constraint_iterator := constraints self in
  '(self, new, _) ←
    apply_constraints self new pre_trained constraint_iterator false false;
  loss1 ← loss_on new x;
  new ← reverse_constraints self new pre_trained;
  '(self, _, g) ← perturb_gamma self (-2) [] (Some zs) g;
  let constraint_iterator := constraints self in
  '(self, new, _) ←
    apply_constraints self new pre_trained constraint_iterator false true;
  loss2 ← loss_on new x;
  new ← reverse_constraints self new pre_trained;
  '(self, _, g) ← perturb_gamma self 1 [] (Some zs) g;
  let grad := (loss1 - loss2) / 0.4 in
  let tau := 0.2 in
  cs ← update_gammas grad tau ts zs 0 (constraints self);
  Ok (with_constraints self cs, new, g).

Definition zo_forward (self : dizo) (new pre_trained : model)
    (x : option batch) (apply : bool) (g : gen)
  : result (dizo * model * gen) :=
  if apply then
    let constraint_iterator := constraints self in
    '(self, new, _) ←
      apply_constraints self new pre_trained constraint_iterator apply
        false;
    Ok (self, new, g)
  else
    let ts :=
      deviation_norms (exclude_list self) new (parameters pre_trained) in
    self ←
      (if init self then
         cs ← init_gammas ts 0 (constraints self);
         Ok (with_constraints self cs)
       else Ok self);
    zo_probe self ts new pre_trained x g.

Record dizo_trainer : Type := {
  proj_lr : R;
  max_iters : Z;
  trainer_exclude_list : list string;
  the_dizo : dizo;
  pre_trained : model;
  pgmloader : list batch;
  dataset_iterator : list batch;
  count : Z;
  i : Z
}.

Definition with_dizo (self : dizo_trainer) (d : dizo) (it : list batch)
    (c n : Z) : dizo_trainer :=
  {| proj_lr := proj_lr self;
     max_iters := max_iters self;
     trainer_exclude_list := trainer_exclude_list self;
     the_dizo := d;
     pre_trained := pre_trained self;
     pgmloader := pgmloader self;
     dataset_iterator := it;
     count := c;
     i := n |}.

(** [dizo_trainer.__init__] *)
Definition new_dizo_trainer (base_model : model) (loader : list batch)
    (mode : string) (lr : R) (iters : Z) (exclude : list string)
  : dizo_trainer :=
  {| proj_lr := lr;
     max_iters := iters;
     trainer_exclude_list := exclude;
     the_dizo := new_dizo base_model mode exclude;
     pre_trained := base_model;
     pgmloader := loader;
     dataset_iterator := loader;
     count := 0;
     i := 0 |}.

(** [next(self.dataset_iterator)], restarting the loader once it is
    exhausted. *)
Definition next_data (self : dizo_trainer)
  : result (batch * list batch) :=
  match dataset_iterator self with
  | d :: it => Ok (d, it)
  | [] =>
      match pgmloader self with
      | d :: it => Ok (d, it)
      | [] => Raise StopIteration
      end
  end.

(** One turn of the [while self.count < self.max_iters] loop. *)
Definition zo_iter (base_model : model)
    (s : dizo_trainer * model * gen)
  : result (dizo_trainer * model * gen) :=
  let '(self, m, g) := s in
  '(x, it) ← next_data self;
  '(d, m, g) ← zo_forward (the_dizo self) m base_model (Some x) false g;
  Ok (with_dizo self (with_init d false) it (count self + 1) (i self),
      m, g).

(** The loop itself; [fuel] is the number of turns left,
    [max_iters - count]. *)
Fixpoint zo_iters_loop (fuel : nat) (base_model : model)
    (s : dizo_trainer * model * gen)
  : result (dizo_trainer * model * gen) :=
  match fuel with
  | O => Ok s
  | S fuel' =>
      s ← zo_iter base_model s;
      zo_iters_loop fuel' base_model s
  end.

Definition dizo_zo_iters (self : dizo_trainer) (m base_model : model)
    (apply : bool) (g : gen) : result (dizo_trainer * model * gen) :=
  '(self, m, g) ←
    (if negb apply then
       let self :=
         with_dizo self (with_init (the_dizo self) true)
           (dataset_iterator self) 0 (i self) in
       zo_iters_loop (Z.to_nat (max_iters self - count self)) base_model
         (self, m, g)
     else Ok (self, m, g));
  '(d, m, g) ← zo_forward (the_dizo self) m (pre_trained self) None true g;
  Ok (with_dizo self d (dataset_iterator self) (count self)
        (i self + 1), m, g).

End Adaptation.

(** *** Vocabulary of the statements *)


(** The number of radii the projection of [new] takes from its iterator:
    one per pair of the [zip] that is not excluded. *)
Definition radii_needed (exclude : list string) (new : model)
    (anchors : list parameter) : nat :=
  length (deviation_norms exclude new anchors).



(** The entry of [zs] for the radius at position [k], and the norm at
    position [k], where they exist. *)
Definition zval (zs : gmap nat R) (k : nat) : R := default 0 (zs !! k).
Definition tval (ts : list R) (k : nat) : R := default 0 (ts !! k).

(** The radii after a probe that started from [gammas]: perturbed by
    [+z], [-2z] and [+z], then stepped along [grad] and clipped around the
    norms [ts]. *)
Definition stepped_radii (grad : R) (ts : list R) (zs : gmap nat R)
    (gammas : list R) : list R :=
  imap
    (fun j gamma =>
       clip
         (gamma + 1 * zval zs j * 0.2 + -2 * zval zs j * 0.2
          + 1 * zval zs j * 0.2 - 10 * grad * zval zs j)
         ((1 - 0.2) * tval ts j) ((1 + 0.2) * tval ts j))
    gammas.

(** The names the projection of [new] caches a ratio for, in order: those
    of the pairs of the [zip] that are not excluded. *)
Fixpoint included_names (exclude : list string) (new : model)
    (anchors : list parameter) : list string :=
  match new, anchors with
  | (name, _) :: new', _ :: anchors' =>
      if negb (mem name exclude)
      then name :: included_names exclude new' anchors'
      else included_names exclude new' anchors'
  | _, _ => []
  end.

(** The names [create_contraint] makes a radius for, in order: those of
    the trainable parameters that are not excluded. *)
Definition radius_names (exclude : list string) (m : model) : list string :=
  map fst
    (List.filter
       (fun np => negb (mem (fst np) exclude) && requires_grad (snd np)) m).


End DiZO.

(** ** The first-order adaptation: [DiZO.forward] and [dizo_iters] *)

Module FirstOrder.

Import DiZO.

(** The optimizer of the radii: [zero_grad], [pgm_loss.backward()] and
    [pgm_optimizer.step()] of one turn, as what they do to the trust region
    given the candidate, the anchor and the batch of the turn. *)
Class RadiusOptimizer (OBJ : Objective) : Type := {
  pgm_step : dizo -> model -> model -> batch -> dizo
}.

Section Forward.

Context {TR : TorchRandom} {OBJ : Objective} {OPT : RadiusOptimizer OBJ}.

(** [sum(p.abs().sum() for p in self.constraints.parameters())] *)
Definition radii_penalty (gammas : list R) : R :=
  fold_left (fun acc p => acc + Rabs p) gammas 0.

(** [DiZO.forward]: with [apply] the candidate itself is projected and
    nothing is returned; without it a copy is projected and returned with
    the penalised loss, the candidate being left as it is. *)
Definition forward (self : dizo) (new pre_trained : model)
    (x : option batch) (apply : bool)
  : result (dizo * model * option (R * model)) :=
  let constraint_iterator := constraints self in
  if apply then
    '(self, new, _) ←
      apply_constraints self new pre_trained constraint_iterator apply false;
    Ok (self, new, None)
  else
    let copy_model := new in
    '(self, copy_model, _) ←
      apply_constraints self copy_model pre_trained constraint_iterator false
        false;
    loss ← loss_on copy_model x;
    let pgm_loss := loss + 1e-3 * radii_penalty (constraints self) in
    Ok (self, new, Some (pgm_loss, copy_model)).

(** The parameters of [forward] that a call can name. *)
Definition forward_parameters : list string :=
  ["new"; "pre_trained"; "x"; "apply"]%string.

(** [self.dizo(new, pre_trained, **keywords)]: a keyword that [forward]
    does not have is a type error. *)
Definition call (keywords : list string) (self : dizo)
    (new pre_trained : model) (x : option batch) (apply : bool)
  : result (dizo * model * option (R * model)) :=
  if forallb (fun k => mem k forward_parameters) keywords
  then forward self new pre_trained x apply
  else Raise TypeError.

(** One turn of the loop of [dizo_iters]. *)
Definition fo_iter (base_model : model) (quant : bool)
    (s : dizo_trainer * model)
  : result (dizo_trainer * model) :=
  let '(self, m) := s in
  '(data, it) ← next_data self;
  '(d, m, out) ←
    call ["x"; "quant"]%string (the_dizo self) m base_model (Some data) false;
  let d := pgm_step d m base_model data in
  Ok (with_dizo self d it (count self + 1) (i self), m).

Fixpoint fo_iters_loop (fuel : nat) (base_model : model) (quant : bool)
    (s : dizo_trainer * model) : result (dizo_trainer * model) :=
  match fuel with
  | O => Ok s
  | S fuel' =>
      s ← fo_iter base_model quant s;
      fo_iters_loop fuel' base_model quant s
  end.

Definition dizo_iters (self : dizo_trainer) (m base_model : model)
    (apply quant : bool) : result (dizo_trainer * model) :=
  '(self, m) ←
    (if negb apply then
       let self :=
         with_dizo self (the_dizo self) (dataset_iterator self) 0 (i self) in
       fo_iters_loop (Z.to_nat (max_iters self - count self)) base_model
         quant (self, m)
     else Ok (self, m));
  '(d, m, _) ←
    call ["apply"]%string (the_dizo self) m (pre_trained self) None true;
  Ok (with_dizo self d (dataset_iterator self) (count self) (i self + 1), m).

End Forward.

End FirstOrder.

(** ** The set-up of [_inner_training_loop] *)

Module Setup.

(** What the set-up raises. *)
Inductive error : Type :=
  | ZeroDivisionError
  | ValueError.

(** [sys.maxsize] *)
Definition sys_maxsize : Z := 2 ^ 63 - 1.

Record steps : Type := {
  max_steps : Z;
  num_train_epochs : Z;
  num_update_steps_per_epoch : Z
}.

(** Lines 699-733: the number of steps and epochs, from the length of the
    loader when it has one. *)
Definition training_steps (len_dataloader : option Z)
    (gradient_accumulation_steps args_max_steps : Z)
    (args_num_train_epochs : Q) : error + steps :=
  match len_dataloader with
  | Some len =>
      if (gradient_accumulation_steps =? 0)%Z then inl ZeroDivisionError
      else
        let n := (len / gradient_accumulation_steps)%Z in
        let n := Z.max n 1 in
        if (args_max_steps >? 0)%Z then
          inr {| max_steps := args_max_steps;
                 num_train_epochs :=
                   (args_max_steps / n
                    + (if (args_max_steps mod n >? 0) then 1 else 0))%Z;
                 num_update_steps_per_epoch := n |}
        else
          inr {| max_steps :=
                   Qceiling (args_num_train_epochs * inject_Z n)%Q;
                 num_train_epochs := Qceiling args_num_train_epochs;
                 num_update_steps_per_epoch := n |}
  | None =>
      if (args_max_steps >? 0)%Z then
        inr {| max_steps := args_max_steps;
               num_train_epochs := sys_maxsize;
               num_update_steps_per_epoch := args_max_steps |}
      else inl ValueError
  end.

(** Lines 786-787: the factor of the learning rate under the zeroth-order
    trainer, [1 - global_step / (2 * args.max_steps)]. *)
Definition lr_lambda (global_step args_max_steps : Z) : error + R :=
  if (2 * args_max_steps =? 0)%Z then inl ZeroDivisionError
  else inr (1 - IZR global_step / IZR (2 * args_max_steps)).

(** Lines 818-824: where to resume inside the data, from the global step of
    the checkpoint. *)
Definition resume_position (global_step num_update_steps_per_epoch
    gradient_accumulation_steps : Z) (ignore_data_skip : bool)
  : error + Z * Z :=
  if (num_update_steps_per_epoch =? 0)%Z then inl ZeroDivisionError
  else
    let epochs_trained := (global_step / num_update_steps_per_epoch)%Z in
    let steps_trained_in_current_epoch :=
      if negb ignore_data_skip then
        (global_step mod num_update_steps_per_epoch
         * gradient_accumulation_steps)%Z
      else 0%Z in
    inr (epochs_trained, steps_trained_in_current_epoch).

(** Lines 993-997: whether the model is updated after the batch at [step]. *)
Definition is_update_step (step gradient_accumulation_steps
    steps_in_epoch : Z) : bool :=
  ((step + 1) mod gradient_accumulation_steps =? 0)%Z
  || ((steps_in_epoch <=? gradient_accumulation_steps)%Z
      && (step + 1 =? steps_in_epoch)%Z).

(** The steps of [enumerate(epoch_iterator)] over a loader of length [len]
    at which the model is updated. *)
Definition update_steps (len : nat) (gradient_accumulation_steps : Z)
  : list nat :=
  List.filter
    (fun step =>
       is_update_step (Z.of_nat step) gradient_accumulation_steps
         (Z.of_nat len))
    (seq 0 len).

(** Lines 885-896: the parameters the trainer optimises and the names the
    trust region leaves out, from the parameters of the model and the keys
    of its state dict. *)
Definition select_parameters (m : model) (state_dict_keys : list string)
  : result (model * list string) :=
  let named_parameters_to_optim :=
    List.filter (fun np => requires_grad (snd np)) m in
  match named_parameters_to_optim with
  | [] => Raise IndexError
  | (first, _) :: rest =>
      if negb (String.eqb first "model.decoder.embed_tokens.weight") then
        Ok (named_parameters_to_optim,
            List.filter (fun each => negb (contains "lora" each))
              state_dict_keys)
      else
        Ok (rest,
            "model.decoder.embed_tokens.weight"%string
            :: map fst
                 (List.filter
                    (fun np =>
                       negb (contains "self_attn.v_proj.weight" (fst np))
                       && negb (contains "self_attn.k_proj.weight" (fst np)))
                    named_parameters_to_optim))
  end.

Section Construction.

Context {OBJ : Objective}.


End Construction.

End Setup.

(** ** The labels of [forward_wrap_with_option_len] *)

Module Labels.

(** [ignore_index] of the loss. *)
Definition ignore_index : Z := (-100)%Z.

(** Where a slice [[:stop]] of a sequence of length [n] ends. *)
Definition slice_stop (n : nat) (stop : Z) : nat :=
  if (stop <? 0)%Z then Z.to_nat (Z.max 0 (Z.of_nat n + stop))
  else Z.to_nat (Z.min stop (Z.of_nat n)).

(** [torch.clone(input_ids)[..., 1:]] with the padding tokens replaced by
    [-100]. *)
Definition shift (pad_token_id : Z) (input_ids : list (list Z))
  : list (list Z) :=
  map
    (fun ids =>
       map (fun t => if (t =? pad_token_id)%Z then ignore_index else t)
         (tail ids))
    input_ids.

(** [row[:-_len] = -100] *)
Definition mask_row (row : list Z) (_len : Z) : list Z :=
  let k := slice_stop (length row) (- _len) in
  repeat ignore_index k ++ drop k row.

(** [for _i, _len in enumerate(option_len):
       shift_labels[_i, :-_len] = -100] *)
Fixpoint mask_loop (_i : nat) (option_len : list Z)
    (shift_labels : list (list Z)) : result (list (list Z)) :=
  match option_len with
  | [] => Ok shift_labels
  | _len :: rest =>
      match shift_labels !! _i with
      | None => Raise IndexError
      | Some row =>
          mask_loop (S _i) rest (<[_i := mask_row row _len]> shift_labels)
      end
  end.

(** The labels the loss is computed on. *)
Definition shift_labels (pad_token_id : Z) (input_ids : list (list Z))
    (option_len : option (list Z)) : result (list (list Z)) :=
  let labels := shift pad_token_id input_ids in
  match option_len with
  | None => Ok labels
  | Some lens => mask_loop 0 lens labels
  end.

End Labels.

(** ** A small concrete environment, used to run the definitions *)

Module Toy.

(** A generator that counts: the tensor drawn in state [g] is filled with
    [g], and the state moves on by one. *)
Definition torch : TorchRandom :=
  {| gen := Z;
     manual_seed := fun s => s;
     normal := fun sh g => (map (fun n => repeat (IZR g) n) sh, (g + 1)%Z);
     normal1 := fun g => (IZR g, (g + 1)%Z) |}.

Definition numpy : NumpyRandom :=
  {| np_gen := unit;
     randint := fun _ _ => (1%Z, tt) |}.

(** The loss is the sum of the entries of the first parameter. *)
Definition objective : Objective :=
  {| batch := unit;
     forward_loss := fun m _ =>
       match m with
       | (_, p) :: _ => rsum (map rsum (data p))
       | [] => 0
       end |}.

(** A loss that does not depend on the model. *)
Definition flat_objective : Objective :=
  {| batch := unit;
     forward_loss := fun _ _ => 0 |}.

Definition w (d : tensor) : string * parameter :=
  ("fc.weight"%string, {| data := d; requires_grad := true |}).

Definition b (d : tensor) : string * parameter :=
  ("fc.bias"%string, {| data := d; requires_grad := true |}).

Definition zo_args (gas : Z) : MeZO.TrainingArguments :=
  {| MeZO.zo_eps := 1 / 2;
     MeZO.weight_decay := 0;
     MeZO.gradient_accumulation_steps := gas |}.

Definition zo_trainer (gas : Z) : @MeZO.trainer torch numpy :=
  {| MeZO.args := zo_args gas;
     MeZO.named_parameters_to_optim := [w [[3; 4]]; b [[1]]];
     MeZO.torch_rng := (0%Z : @gen torch);
     MeZO.np_rng := (tt : @np_gen numpy);
     MeZO.zo_random_seed := 0%Z;
     MeZO.projected_grad := 0;
     MeZO.learning_rate := 1;
     MeZO.trace := [] |}.

(** A trainer that differs from [zo_trainer 1] in the values of its
    parameters and in the state of the global generator. *)
Definition other_trainer : @MeZO.trainer torch numpy :=
  {| MeZO.args := zo_args 1;
     MeZO.named_parameters_to_optim := [w [[0; 7]]; b [[5]]];
     MeZO.torch_rng := (42%Z : @gen torch);
     MeZO.np_rng := (tt : @np_gen numpy);
     MeZO.zo_random_seed := 0%Z;
     MeZO.projected_grad := 3;
     MeZO.learning_rate := 1;
     MeZO.trace := [] |}.

(** A two-parameter model, its anchor, and a trust region on the weight
    alone. *)
Definition candidate : model := [w [[3; 4]]; b [[1]]].
Definition anchor : model := [w [[0; 0]]; b [[0]]].
Definition region (mode : string) : DiZO.dizo :=
  DiZO.new_dizo anchor mode ["fc.bias"%string].


Definition projected (mode : string) (m : model)
  : result (DiZO.dizo * model * list R) :=
  DiZO.apply_constraints (region mode) m anchor [1] false false.

Definition ok_dizo (r : result (DiZO.dizo * model * list R)) : DiZO.dizo :=
  match r with
  | Ok (d, _, _) => d
  | Raise _ => region ""
  end.

Definition ok_model (r : result (DiZO.dizo * model * list R)) : model :=
  match r with
  | Ok (_, m, _) => m
  | Raise _ => []
  end.

Definition ok_rest (r : result (DiZO.dizo * model * list R)) : list R :=
  match r with
  | Ok (_, _, it) => it
  | Raise _ => []
  end.

(** A model of one weight, its anchor, and the trust-region trainer on it:
    nothing excluded, a loss that is flat, one batch in the loader and one
    turn per run. *)
Definition solo (d : tensor) : model :=
  [("w"%string, {| data := d; requires_grad := true |})].

Definition tuner : @DiZO.dizo_trainer flat_objective :=
  @DiZO.new_dizo_trainer flat_objective (solo [[0; 0]]) [tt] "l2" 0.1 1 [].

(** An optimizer of the radii that leaves them as they are. *)
Definition optimizer : FirstOrder.RadiusOptimizer flat_objective :=
  {| FirstOrder.pgm_step := fun d _ _ _ => d |}.

(** A frozen parameter. *)
Definition frozen (name : string) (d : tensor) : string * parameter :=
  (name, {| data := d; requires_grad := false |}).


End Toy.

(** * Properties *)

(** ** Names *)

Example contains_bias : contains "bias" "fc.bias" = true.
Proof. reflexivity. Qed.

Example contains_l2 :
  contains "l2" "l2norm" = true /\ contains "l2" "mars" = false.
Proof. split; reflexivity. Qed.

Example decayed_names :
  MeZO.decayed "fc.weight" = true
  /\ MeZO.decayed "fc.bias" = false
  /\ MeZO.decayed "final_layer_norm.weight" = false
  /\ MeZO.decayed "encoder.layernorm.weight" = false.
Proof. repeat split; reflexivity. Qed.

(** ** Arithmetic of tensors *)

Section TensorFacts.

Lemma map2_length {A B C : Type} (f : A -> B -> C) xs ys :
  length xs = length ys -> length (Tensor.map2 f xs ys) = length xs.
Proof.
  revert ys; induction xs as [|x xs IH]; intros [|y ys]; simpl;
    intros Hl; try discriminate; auto.
Qed.

(** Pointwise reasoning on two tensors of one shape. *)
Lemma map2_rows_ext (f : R -> R -> R) (k : R -> R) :
  (forall x y, f x y = k x) ->
  forall r z : row, length z = length r -> Tensor.map2 f r z = map k r.
Proof.
  intros Hf r; induction r as [|x r IH]; intros [|y z]; simpl;
    intros Hl; try discriminate; auto.
  rewrite Hf, IH by congruence. reflexivity.
Qed.

Lemma perturbed_rows (eps c : R) (p z : tensor) :
  shape z = shape p ->
  MeZO.perturbed eps c p z
  = Tensor.map2 (Tensor.map2 (fun x y => x + c * y * eps)) p z.
Proof.
  unfold MeZO.perturbed, tadd, muls, smul.
  revert z; induction p as [|r p IH]; intros [|s z]; simpl;
    intros Hs; try discriminate; auto.
  injection Hs as Hl Hs. rewrite IH by assumption. f_equal.
  clear -Hl. revert s Hl; induction r as [|x r IHr]; intros [|y s]; simpl;
    intros Hl; try discriminate; auto.
  rewrite IHr by congruence. reflexivity.
Qed.

Lemma perturbed_shape (eps c : R) (p z : tensor) :
  shape z = shape p -> shape (MeZO.perturbed eps c p z) = shape p.
Proof.
  intros Hs. rewrite perturbed_rows by assumption.
  revert z Hs; induction p as [|r p IH]; intros [|s z]; simpl;
    intros Hs; try discriminate; auto.
  injection Hs as Hl Hs. rewrite map2_length by congruence.
  f_equal. apply IH. assumption.
Qed.

(** Two perturbations by the same [z] add their scaling factors. *)
Lemma perturbed_twice (eps c d : R) (p z : tensor) :
  shape z = shape p ->
  MeZO.perturbed eps d (MeZO.perturbed eps c p z) z
  = MeZO.perturbed eps (c + d) p z.
Proof.
  intros Hs.
  rewrite (perturbed_rows eps d) by (rewrite perturbed_shape; assumption).
  rewrite !perturbed_rows by assumption.
  revert z Hs; induction p as [|r p IH]; intros [|s z]; simpl;
    intros Hs; try discriminate; auto.
  injection Hs as Hl Hs. rewrite IH by assumption. f_equal.
  clear -Hl. revert s Hl; induction r as [|x r IHr]; intros [|y s]; simpl;
    intros Hl; try discriminate; auto.
  rewrite IHr by congruence. f_equal. lra.
Qed.

(** A perturbation with scaling factor 0 changes nothing. *)
Lemma perturbed_zero (eps : R) (p z : tensor) :
  shape z = shape p -> MeZO.perturbed eps 0 p z = p.
Proof.
  intros Hs. rewrite perturbed_rows by assumption.
  revert z Hs; induction p as [|r p IH]; intros [|s z]; simpl;
    intros Hs; try discriminate; auto.
  injection Hs as Hl Hs. rewrite IH by assumption. f_equal.
  rewrite (map2_rows_ext _ (fun x => x)) by (intros; lra || congruence).
  apply map_id.
Qed.

End TensorFacts.

(** ** The estimator *)

Section EstimatorFacts.

Context {TR : TorchRandom} {NP : NumpyRandom} {OBJ : Objective}.

Import MeZO.

Lemma perturb_loop_draws eps c ps g :
  perturb_loop eps c ps g
  = (shifted eps c ps (fst (draws (sizes ps) g)),
     fst (draws (sizes ps) g), snd (draws (sizes ps) g)).
Proof.
  revert g; induction ps as [|[name p] ps IH]; intros g; simpl; auto.
  destruct (normal (shape (data p)) g) as [z g1]. rewrite IH.
  destruct (draws (sizes ps) g1) as [zs g2]. reflexivity.
Qed.

Lemma update_loop_draws lr pg wd ps g :
  update_loop lr pg wd ps g
  = (updated lr pg wd ps (fst (draws (sizes ps) g)),
     fst (draws (sizes ps) g), snd (draws (sizes ps) g)).
Proof.
  revert g; induction ps as [|[name p] ps IH]; intros g; simpl; auto.
  destruct (normal (shape (data p)) g) as [z g1]. rewrite IH.
  destruct (draws (sizes ps) g1) as [zs g2]. reflexivity.
Qed.

(** The draws have the sizes they were asked for. *)
Lemma draws_sizes `{!TorchRandomSized TR} szs g :
  map shape (fst (draws szs g)) = szs.
Proof.
  revert g; induction szs as [|sh szs IH]; intros g; simpl; auto.
  pose proof (normal_shape sh g) as Hs.
  destruct (normal sh g) as [z g1]. specialize (IH g1).
  destruct (draws szs g1) as [zs g2]. simpl in *. congruence.
Qed.

Lemma shifted_sizes eps c ps zs :
  map shape zs = sizes ps -> sizes (shifted eps c ps zs) = sizes ps.
Proof.
  revert zs; induction ps as [|[name p] ps IH]; intros [|z zs]; simpl;
    intros Hs; try discriminate; auto.
  injection Hs as Hz Hs. unfold sizes, shifted in *. simpl.
  rewrite perturbed_shape by assumption. f_equal. apply IH. assumption.
Qed.

Lemma shifted_twice eps c d ps zs :
  map shape zs = sizes ps ->
  shifted eps d (shifted eps c ps zs) zs = shifted eps (c + d) ps zs.
Proof.
  unfold shifted.
  revert zs; induction ps as [|[name p] ps IH]; intros [|z zs]; simpl;
    intros Hs; try discriminate; auto.
  injection Hs as Hz Hs. rewrite IH by assumption.
  rewrite perturbed_twice by assumption. reflexivity.
Qed.

Lemma shifted_zero eps ps zs :
  map shape zs = sizes ps -> shifted eps 0 ps zs = ps.
Proof.
  unfold shifted.
  revert zs; induction ps as [|[name p] ps IH]; intros [|z zs]; simpl;
    intros Hs; try discriminate; auto.
  injection Hs as Hz Hs. rewrite IH by assumption.
  rewrite perturbed_zero by assumption. destruct p; reflexivity.
Qed.

(** One call of [zo_perturb_parameters], in closed form. *)
Lemma zo_perturb_parameters_eq rs c (self : trainer) :
  let zs := fst (draws (sizes (named_parameters_to_optim self))
                   (manual_seed (seed_used rs self))) in
  zo_perturb_parameters rs c self
  = with_params self
      (shifted (zo_eps (args self)) c (named_parameters_to_optim self) zs)
      (snd (draws (sizes (named_parameters_to_optim self))
              (manual_seed (seed_used rs self))))
      [Perturb c].
Proof.
  unfold zo_perturb_parameters. rewrite perturb_loop_draws. reflexivity.
Qed.

End EstimatorFacts.

Lemma toy_torch_sized : TorchRandomSized Toy.torch.
Proof.
  constructor. intros sh g. simpl.
  induction sh as [|n sh IH]; simpl; [reflexivity|].
  rewrite repeat_length. f_equal. exact IH.
Qed.

Section EstimatorTheorems.

Context {TR : TorchRandom} {NP : NumpyRandom} {OBJ : Objective}.

Import MeZO.

Ltac fields :=
  cbn [with_seed with_params with_grad args named_parameters_to_optim
       torch_rng np_rng zo_random_seed projected_grad learning_rate trace
       seed_used fst snd].

(** [zo_step] up to its assertion: the state [at_assert] the assertion is
    checked in, and what follows in either case. *)
Lemma zo_step_cases `{!TorchRandomSized TR}
    (self : trainer) (inputs : batch) :
  let seed := fst (randint 1000000000 (np_rng self)) in
  let ps := named_parameters_to_optim self in
  let eps := zo_eps (args self) in
  let zs := fst (draws (sizes ps) (manual_seed seed)) in
  let g' := snd (draws (sizes ps) (manual_seed seed)) in
  let L1 := forward_loss (shifted eps 1 ps zs) inputs in
  let L2 := forward_loss (shifted eps (-1) ps zs) inputs in
  exists at_assert,
    named_parameters_to_optim at_assert = shifted eps (-1) ps zs
    /\ zo_random_seed at_assert = seed
    /\ projected_grad at_assert = (L1 - L2) / (2 * eps)
    /\ args at_assert = args self
    /\ learning_rate at_assert = learning_rate self
    /\ trace at_assert
       = trace self ++ [Perturb 1; Forward; Perturb (-2); Forward]
    /\ zo_step self inputs
       = if (gradient_accumulation_steps (args self) =? 1)%Z
         then Returned L1 (with_params at_assert ps g' [Perturb 1])
         else Raised AssertionError at_assert.
Proof.
  intros seed ps eps zs g' L1 L2.
  assert (Hzs : map shape zs = sizes ps) by apply draws_sizes.
  unfold zo_step. subst seed.
  destruct (randint 1000000000 (np_rng self)) as [seed n].
  simpl in zs, g'.
  cbv zeta. unfold zo_forward.
  rewrite (zo_perturb_parameters_eq None 1). fields. fold ps eps zs g'.
  rewrite (zo_perturb_parameters_eq None (-2)). fields. fold ps eps.
  rewrite (shifted_sizes eps 1 ps zs Hzs). fold zs g'.
  rewrite (shifted_twice eps 1 (-2) ps zs Hzs).
  replace (1 + -2) with (-1) by lra.
  rewrite (zo_perturb_parameters_eq None 1). fields. fold ps eps.
  rewrite (shifted_sizes eps (-1) ps zs Hzs). fold zs g'.
  rewrite (shifted_twice eps (-1) 1 ps zs Hzs).
  replace (-1 + 1) with 0 by lra.
  rewrite (shifted_zero eps ps zs Hzs).
  fold L1 L2.
  match goal with
  | |- context [Raised AssertionError ?s] => exists s
  end.
  fields. rewrite <- !app_assoc.
  do 6 (split; [reflexivity|]).
  destruct (gradient_accumulation_steps (args self) =? 1)%Z;
    [f_equal|reflexivity].
Qed.


(** C3. The noise is a function of the seed and of the sizes of the
    parameters alone: whatever the state of the global generator and
    whatever the values of the parameters, a perturbation and any other
    perturbation or update that reseed with the same seed and enumerate
    parameters of the same sizes draw the same tensors. *)
Theorem zo_noise_reproducible (a b : trainer) (rs : option Z) (c d : R) :
  seed_used rs a = zo_random_seed b ->
  sizes (named_parameters_to_optim a) = sizes (named_parameters_to_optim b) ->
  perturb_noise rs c a = perturb_noise None d b
  /\ perturb_noise rs c a = update_noise b.
Proof.
  intros Hseed Hsz. unfold perturb_noise, update_noise.
  rewrite !perturb_loop_draws, update_loop_draws. simpl.
  rewrite Hseed, Hsz. split; reflexivity.
Qed.


(** C9, as the code has it.  A window other than 1 is refused by the
    assertion inside [zo_step]: the call raises, and it does so after both
    perturbations and both forward evaluations of that step and after the
    projected gradient is stored; the restoring perturbation is not run, so
    the parameters are left at [theta - eps*z]. *)
Theorem zo_step_asserts_window `{!TorchRandomSized TR}
    (self : trainer) (inputs : batch) :
  gradient_accumulation_steps (args self) <> 1%Z ->
  let seed := fst (randint 1000000000 (np_rng self)) in
  let ps := named_parameters_to_optim self in
  let eps := zo_eps (args self) in
  let zs := fst (draws (sizes ps) (manual_seed seed)) in
  let L1 := forward_loss (shifted eps 1 ps zs) inputs in
  let L2 := forward_loss (shifted eps (-1) ps zs) inputs in
  exists self',
    zo_step self inputs = Raised AssertionError self'
    /\ named_parameters_to_optim self' = shifted eps (-1) ps zs
    /\ projected_grad self' = (L1 - L2) / (2 * eps)
    /\ trace self'
       = trace self ++ [Perturb 1; Forward; Perturb (-2); Forward].
Proof.
  intros Hgas seed ps eps zs L1 L2.
  destruct (zo_step_cases self inputs)
    as (s & Hps & Hseed & Hpg & Hargs & Hlr & Htr & Hstep).
  apply Z.eqb_neq in Hgas. rewrite Hgas in Hstep.
  exists s. auto.
Qed.

(** C2. After a [zo_step] that returned, [zo_update] reseeds with the seed
    the step stored and redraws the tensors [z] of the step's first
    perturbation; with [g] the stored projected gradient and [theta] the
    parameters before the step, a parameter becomes
    [theta - lr*(g*z + wd*theta)] when its name contains none of "bias",
    "layer_norm" and "layernorm", and [theta - lr*(g*z)] otherwise. *)
Theorem zo_update_rule `{!TorchRandomSized TR}
    (self self' : trainer) (inputs : batch) (loss : R) :
  zo_step self inputs = Returned loss self' ->
  let seeded :=
    with_seed self (fst (randint 1000000000 (np_rng self)))
      (snd (randint 1000000000 (np_rng self))) in
  let zs := perturb_noise None 1 seeded in
  zo_random_seed self' = zo_random_seed seeded
  /\ update_noise self' = zs
  /\ named_parameters_to_optim (zo_update self')
     = updated (learning_rate self) (projected_grad self')
         (weight_decay (args self)) (named_parameters_to_optim self) zs.
Proof.
  intros Hret seeded zs.
  destruct (zo_step_cases self inputs)
    as (s & Hps & Hseed & Hpg & Hargs & Hlr & Htr & Hstep).
  rewrite Hret in Hstep.
  destruct (gradient_accumulation_steps (args self) =? 1)%Z;
    [|discriminate].
  injection Hstep as -> ->.
  subst zs seeded. unfold perturb_noise, update_noise, zo_update.
  rewrite perturb_loop_draws, !update_loop_draws. fields.
  rewrite Hseed, Hargs, Hlr. repeat split; auto.
Qed.

End EstimatorTheorems.

(** *** The estimator on the concrete environment *)

Section EstimatorRuns.

Import MeZO.


Lemma zo_noise_reproducible_witness :
  seed_used (Some 0%Z) (Toy.zo_trainer 1)
  = zo_random_seed Toy.other_trainer
  /\ sizes (named_parameters_to_optim (Toy.zo_trainer 1))
     = sizes (named_parameters_to_optim Toy.other_trainer)
  /\ perturb_noise (Some 0%Z) 1 (Toy.zo_trainer 1)
     = perturb_noise None (-2) Toy.other_trainer
  /\ perturb_noise (Some 0%Z) 1 (Toy.zo_trainer 1)
     = update_noise Toy.other_trainer.
Proof.
  split; [reflexivity|]. split; [reflexivity|].
  apply (@zo_noise_reproducible Toy.torch Toy.numpy
           (Toy.zo_trainer 1) Toy.other_trainer (Some 0%Z) 1 (-2));
    reflexivity.
Defined.

Lemma zo_update_rule_witness :
  exists loss self',
    @zo_step Toy.torch Toy.numpy Toy.objective (Toy.zo_trainer 1) tt
    = Returned loss self'
    /\ update_noise self' = [[[1; 1]]; [[2]]]
    /\ named_parameters_to_optim (zo_update self')
       = updated 1 (projected_grad self') 0
           [Toy.w [[3; 4]]; Toy.b [[1]]] [[[1; 1]]; [[2]]].
Proof.
  destruct (@zo_step_cases Toy.torch Toy.numpy Toy.objective
              toy_torch_sized (Toy.zo_trainer 1) tt)
    as (s & _ & _ & _ & _ & _ & _ & Hstep).
  change ((gradient_accumulation_steps (args (Toy.zo_trainer 1)) =? 1)%Z)
    with true in Hstep.
  cbv iota in Hstep.
  eexists _, _. split; [exact Hstep|].
  destruct (@zo_update_rule Toy.torch Toy.numpy Toy.objective
              toy_torch_sized (Toy.zo_trainer 1) _ tt _ Hstep)
    as (_ & Hz & Hps).
  split; [exact Hz|exact Hps].
Defined.

Lemma zo_step_asserts_window_witness :
  gradient_accumulation_steps (args (Toy.zo_trainer 2)) <> 1%Z
  /\ exists self',
       @zo_step Toy.torch Toy.numpy Toy.objective (Toy.zo_trainer 2) tt
       = Raised AssertionError self'
       /\ trace self' = [Perturb 1; Forward; Perturb (-2); Forward].
Proof.
  assert (Hgas : gradient_accumulation_steps (args (Toy.zo_trainer 2))
                 <> 1%Z) by (simpl; lia).
  split; [exact Hgas|].
  destruct (@zo_step_asserts_window Toy.torch Toy.numpy Toy.objective
              toy_torch_sized (Toy.zo_trainer 2) tt Hgas)
    as (s & Hstep & _ & _ & Htr).
  exists s. split; [exact Hstep|exact Htr].
Defined.

(** C9, as stated, fails: with a window of 2 the step has perturbed the
    parameters twice and evaluated the loss twice by the time it raises,
    and the parameters are not the ones it started from. *)
Lemma zo_step_window_counterexample :
  gradient_accumulation_steps (args (Toy.zo_trainer 2)) = 2%Z
  /\ exists self',
       @zo_step Toy.torch Toy.numpy Toy.objective (Toy.zo_trainer 2) tt
       = Raised AssertionError self'
       /\ trace self' = [Perturb 1; Forward; Perturb (-2); Forward]
       /\ forward_passes (trace self') = 2%nat
       /\ named_parameters_to_optim self'
          = [Toy.w [[5 / 2; 7 / 2]]; Toy.b [[0]]]
       /\ named_parameters_to_optim self'
          <> named_parameters_to_optim (Toy.zo_trainer 2).
Proof.
  split; [reflexivity|].
  eexists. split; [reflexivity|].
  split; [reflexivity|]. split; [reflexivity|].
  assert (Hps : forall a b c : R, a = 5 / 2 -> b = 7 / 2 -> c = 0 ->
            [Toy.w [[a; b]]; Toy.b [[c]]]
            = [Toy.w [[5 / 2; 7 / 2]]; Toy.b [[0]]])
    by (intros; subst; reflexivity).
  split.
  - apply Hps; simpl; rewrite ?plus_IZR; lra.
  - simpl. intros Heq. injection Heq as Heq _. lra.
Defined.

End EstimatorRuns.

(** ** The NaN/Inf filter *)

Section LoopFacts.

Import Loop.




End LoopFacts.

(** ** The projection *)

Section ProjectionFacts.

Import DiZO.

Lemma bind_ok {A B : Type} (r : result A) (k : A -> result B) (b : B) :
  r ≫= k = Ok b -> exists a, r = Ok a /\ k a = Ok b.
Proof. destruct r as [a|e]; simpl; [eauto|discriminate]. Qed.

(** *** Tensors of one shape *)







(** *** Norms *)










(** *** The ratio *)

Lemma project_ratio_eq (self : dizo) (x a : tensor) (r : R) (it : list R) :
  _project_ratio self x a (r :: it)
  = Ok (if contains "l2" (norm_mode self)
        then Scalar (r / (l2norm (tsub x a) + 1e-8))
        else PerRow (map (fun n => r / (n + 1e-8)) (mars_norm (tsub x a))),
        it).
Proof.
  unfold _project_ratio. destruct (contains "l2" (norm_mode self));
    reflexivity.
Qed.

Lemma project_ratio_inv (self : dizo) (x a : tensor) (it it' : list R)
    (al : ratio) :
  _project_ratio self x a it = Ok (al, it') ->
  exists r, it = r :: it'
    /\ al = (if contains "l2" (norm_mode self)
             then Scalar (r / (l2norm (tsub x a) + 1e-8))
             else PerRow (map (fun n => r / (n + 1e-8))
                            (mars_norm (tsub x a)))).
Proof.
  destruct it as [|r it]; [discriminate|].
  rewrite project_ratio_eq. intros H. injection H as <- <-.
  exists r. split; reflexivity.
Qed.



(** *** The loops *)

Lemma apply_loop_frame (self self' : dizo) (new new' : model)
    (anchors : list parameter) (it it' : list R) (ap : bool) :
  apply_loop self new anchors it ap = Ok (self', new', it') ->
  norm_mode self' = norm_mode self
  /\ exclude_list self' = exclude_list self
  /\ constraints self' = constraints self
  /\ init self' = init self
  /\ map fst new' = map fst new
  /\ (forall name, ~ In name (map fst new) ->
        alpha self' !! name = alpha self !! name).
Proof.
  revert self self' new' anchors it it';
    induction new as [|[name p] new IH];
    intros self self' new' anchors it it' H.
  - simpl in H. injection H as <- <- <-. repeat split; auto.
  - destruct anchors as [|a anchors].
    { simpl in H. injection H as <- <- <-. repeat split; auto. }
    simpl in H.
    destruct (mem name (exclude_list self)); simpl in H.
    + apply bind_ok in H as ([[s1 rest] it1] & Hrec & H).
      simpl in H. injection H as <- <- <-.
      apply IH in Hrec as (? & ? & ? & ? & Hn & Hal).
      repeat split; auto.
      * simpl. f_equal. exact Hn.
      * intros nm Hnm. apply Hal. simpl in Hnm. tauto.
    + apply bind_ok in H as ([al it1] & Hpr & H). simpl in H.
      apply bind_ok in H as ([[s1 rest] it2] & Hrec & H).
      simpl in H. injection H as <- <- <-.
      apply IH in Hrec as (? & ? & ? & ? & Hn & Hal).
      simpl in *. repeat split; auto.
      * f_equal. exact Hn.
      * intros nm Hnm. rewrite Hal by tauto.
        apply lookup_insert_ne. intros ->. tauto.
Qed.

(** The projection returns when the iterator holds enough radii. *)
Lemma apply_loop_total (self : dizo) (new : model)
    (anchors : list parameter) (it : list R) (ap : bool) :
  (radii_needed (exclude_list self) new anchors <= length it)%nat ->
  exists res, apply_loop self new anchors it ap = Ok res.
Proof.
  unfold radii_needed.
  revert self anchors it; induction new as [|[name p] new IH];
    intros self anchors it Hlen.
  - simpl. eauto.
  - destruct anchors as [|a anchors]; [simpl; eauto|].
    simpl in *.
    destruct (mem name (exclude_list self)) eqn:Hex; simpl in *.
    + destruct (IH self anchors it Hlen) as ([[s1 rest] it1] & ->).
      simpl. eauto.
    + destruct it as [|r it]; simpl in Hlen; [lia|].
      rewrite project_ratio_eq. simpl.
      match goal with
      | |- context [apply_loop ?s new anchors it ap] =>
          destruct (IH s anchors it) as ([[s1 rest] it1] & ->)
      end.
      * simpl. lia.
      * simpl. eauto.
Qed.










End ProjectionFacts.

(** *** The projection on the concrete environment *)

Section ProjectionRuns.

Import DiZO.


Lemma l2norm_pair (x y n : R) :
  0 <= n -> x * x + y * y = n * n -> l2norm [[x; y]] = n.
Proof.
  intros Hn Hxy. unfold l2norm, sumsq. simpl.
  replace (x * x + (y * y + 0) + 0) with (n * n) by lra.
  apply sqrt_square. exact Hn.
Qed.





End ProjectionRuns.

(** ** The adaptation of the radii *)

Section AdaptationFacts.

Context {TR : TorchRandom} {OBJ : Objective}.

Import DiZO.










Lemma init_gammas_take (ts : list R) (i : nat) (gammas : list R) :
  (i + length gammas <= length ts)%nat ->
  init_gammas ts i gammas = Ok (take (length gammas) (drop i ts)).
Proof.
  revert i; induction gammas as [|gamma gammas IH]; intros i Hlen; simpl.
  - reflexivity.
  - simpl in Hlen.
    destruct (ts !! i) as [t|] eqn:Ht.
    + rewrite IH by lia. simpl.
      rewrite (drop_S ts t i Ht). reflexivity.
    + apply lookup_ge_None in Ht. lia.
Qed.

Lemma init_gammas_length (ts : list R) (i : nat) (g1 g2 : list R) :
  length g1 = length g2 -> init_gammas ts i g1 = init_gammas ts i g2.
Proof.
  revert i g2; induction g1 as [|a g1 IH]; intros i [|b g2] Hl;
    try discriminate; simpl; [reflexivity|].
  destruct (ts !! i); [|reflexivity].
  rewrite (IH (S i) g2) by (simpl in Hl; lia). reflexivity.
Qed.

(** With the flag set, the radii a probe starts from are the norms. *)
Lemma zo_forward_flagged (d : dizo) (new pre_trained : model)
    (x : option batch) (g : gen) :
  init d = true ->
  let ts := deviation_norms (exclude_list d) new (parameters pre_trained) in
  (length (constraints d) <= length ts)%nat ->
  zo_forward d new pre_trained x false g
  = zo_probe (with_constraints d (take (length (constraints d)) ts)) ts new
      pre_trained x g.
Proof.
  intros Hinit ts Hlen. unfold zo_forward. rewrite Hinit.
  cbv beta iota zeta. fold ts.
  rewrite init_gammas_take by (simpl; lia). reflexivity.
Qed.

(** C8, as the code has it.  Every run of [dizo_zo_iters] sets the flag on
    entry, so that a run of at least one turn does not depend on the radii
    and the flag the trainer held before; with the flag set, a turn replaces
    each radius by the Euclidean norm of the deviation of its parameter from
    the anchor, whatever the norm mode, and then probes and steps from
    there; with the flag cleared it probes and steps from the radii it
    finds; and the flag is cleared at the end of each turn. *)
Theorem radius_lifecycle (self : dizo_trainer) (m base_model : model)
    (g : gen) (cs : list R) (b : bool) :
  length cs = length (constraints (the_dizo self)) ->
  (1 <= max_iters self)%Z ->
  dizo_zo_iters
    (with_dizo self (with_init (with_constraints (the_dizo self) cs) b)
       (dataset_iterator self) (count self) (i self))
    m base_model false g
  = dizo_zo_iters self m base_model false g
  /\ (forall (d : dizo) (new : model) (x : option batch) (g0 : gen),
        let ts :=
          deviation_norms (exclude_list d) new (parameters base_model) in
        init d = true ->
        (length (constraints d) <= length ts)%nat ->
        zo_forward d new base_model x false g0
        = zo_probe (with_constraints d (take (length (constraints d)) ts))
            ts new base_model x g0)
  /\ (forall (d : dizo) (new : model) (x : option batch) (g0 : gen),
        init d = false ->
        zo_forward d new base_model x false g0
        = zo_probe d
            (deviation_norms (exclude_list d) new (parameters base_model))
            new base_model x g0)
  /\ (forall s s' : dizo_trainer * model * gen,
        zo_iter base_model s = Ok s' ->
        init (the_dizo (fst (fst s'))) = false).
Proof.
  intros Hlen Hmax. split; [|split; [|split]].
  - unfold dizo_zo_iters. simpl.
    destruct (Z.to_nat (max_iters self - 0)) as [|k] eqn:Hk; [lia|].
    simpl. unfold zo_iter, next_data. simpl.
    rewrite (init_gammas_length _ 0 cs (constraints (the_dizo self)) Hlen).
    reflexivity.
  - intros d new x g0 ts Hinit Hl.
    exact (zo_forward_flagged d new base_model x g0 Hinit Hl).
  - intros d new x g0 Hinit. unfold zo_forward. rewrite Hinit. reflexivity.
  - intros [[s_self s_m] s_g] s' H. unfold zo_iter in H.
    apply bind_ok in H as ([x it] & _ & H). cbv beta iota zeta in H.
    apply bind_ok in H as ([[d m1] g1] & _ & H). cbv beta iota zeta in H.
    injection H as <-. reflexivity.
Qed.

(** *** The turn returns, and what it leaves in the radii *)

Lemma zval_lookup (zs : gmap nat R) (k : nat) (z : R) :
  zs !! k = Some z -> zval zs k = z.
Proof. unfold zval. intros ->. reflexivity. Qed.

Lemma tval_lookup (ts : list R) (k : nat) (t : R) :
  ts !! k = Some t -> tval ts k = t.
Proof. unfold tval. intros ->. reflexivity. Qed.

(** Drawing fresh [z]: every radius moves by [delta * z * 0.2] and its [z]
    is recorded under its index. *)
Lemma perturb_fresh_eq (delta : R) (ts : list R) (i : nat)
    (gammas : list R) (zs : gmap nat R) (g : gen) :
  (i + length gammas <= length ts)%nat ->
  exists zs' g',
    perturb_gamma_loop delta ts false i gammas zs g
    = Ok (imap (fun j gamma => gamma + delta * zval zs' (i + j) * 0.2)
            gammas, zs', g')
    /\ (forall j, (j < length gammas)%nat -> is_Some (zs' !! (i + j)%nat))
    /\ (forall k, (k < i)%nat -> zs' !! k = zs !! k).
Proof.
  revert i zs g; induction gammas as [|gamma gammas IH]; intros i zs g Hlen.
  - exists zs, g. simpl. split; [reflexivity|]. split; [intros; lia|auto].
  - simpl in Hlen. simpl.
    destruct (ts !! i) as [t|] eqn:Ht;
      [|apply lookup_ge_None in Ht; lia].
    destruct (normal1 g) as [n g1]. simpl.
    destruct (IH (S i) (<[i := t * n]> zs) g1) as (zs' & g' & Heq & Hkeys & Hold);
      [lia|].
    exists zs', g'. rewrite Heq. simpl.
    assert (Hi : zs' !! i = Some (t * n)).
    { rewrite Hold by lia. apply lookup_insert_eq. }
    split; [|split].
    + assert (Hl : (gamma + delta * (t * n) * 0.2)
                   :: imap (fun j c => c + delta * zval zs' (S i + j) * 0.2)
                        gammas
                   = imap (fun j c => c + delta * zval zs' (i + j) * 0.2)
                       (gamma :: gammas)).
      { simpl. rewrite Nat.add_0_r, (zval_lookup _ _ _ Hi). f_equal.
        apply imap_ext. intros j c _. simpl.
        replace (i + S j)%nat with (S (i + j)) by lia. reflexivity. }
      simpl in Hl |- *. rewrite <- Hl. reflexivity.
    + intros [|j] Hj.
      * rewrite Nat.add_0_r, Hi. eauto.
      * replace (i + S j)%nat with (S i + j)%nat by lia.
        apply Hkeys. simpl in Hj. lia.
    + intros k Hk. rewrite Hold by lia.
      apply lookup_insert_ne. lia.
Qed.

(** Reusing recorded [z]. *)
Lemma perturb_kept_eq (delta : R) (ts : list R) (i : nat) (gammas : list R)
    (zs : gmap nat R) (g : gen) :
  (forall j, (j < length gammas)%nat -> is_Some (zs !! (i + j)%nat)) ->
  perturb_gamma_loop delta ts true i gammas zs g
  = Ok (imap (fun j gamma => gamma + delta * zval zs (i + j) * 0.2) gammas,
        zs, g).
Proof.
  revert i; induction gammas as [|gamma gammas IH]; intros i Hkeys.
  - reflexivity.
  - simpl. destruct (Hkeys 0%nat) as [z Hz]; [simpl; lia|].
    rewrite Nat.add_0_r in Hz. rewrite Hz. simpl.
    rewrite IH.
    + assert (Hl : (gamma + delta * z * 0.2)
                   :: imap (fun j c => c + delta * zval zs (S i + j) * 0.2)
                        gammas
                   = imap (fun j c => c + delta * zval zs (i + j) * 0.2)
                       (gamma :: gammas)).
      { simpl. rewrite Nat.add_0_r, (zval_lookup _ _ _ Hz). f_equal.
        apply imap_ext. intros j c _. simpl.
        replace (i + S j)%nat with (S (i + j)) by lia. reflexivity. }
      simpl in Hl |- *. rewrite <- Hl. reflexivity.
    + intros j Hj. replace (S i + j)%nat with (i + S j)%nat by lia.
      apply Hkeys. simpl. lia.
Qed.

Lemma update_gammas_eq (grad tau : R) (ts : list R) (zs : gmap nat R)
    (i : nat) (gammas : list R) :
  (forall j, (j < length gammas)%nat -> is_Some (zs !! (i + j)%nat)) ->
  (i + length gammas <= length ts)%nat ->
  update_gammas grad tau ts zs i gammas
  = Ok (imap
          (fun j gamma =>
             clip (gamma - 10 * grad * zval zs (i + j))
               ((1 - tau) * tval ts (i + j)) ((1 + tau) * tval ts (i + j)))
          gammas).
Proof.
  revert i; induction gammas as [|gamma gammas IH]; intros i Hkeys Hlen.
  - reflexivity.
  - simpl in Hlen. simpl. destruct (Hkeys 0%nat) as [z Hz]; [simpl; lia|].
    rewrite Nat.add_0_r in Hz. rewrite Hz.
    destruct (ts !! i) as [t|] eqn:Ht;
      [|apply lookup_ge_None in Ht; lia].
    rewrite IH.
    + assert (Hl : clip (gamma - 10 * grad * z) ((1 - tau) * t)
                     ((1 + tau) * t)
                   :: imap
                        (fun j c =>
                           clip (c - 10 * grad * zval zs (S i + j))
                             ((1 - tau) * tval ts (S i + j))
                             ((1 + tau) * tval ts (S i + j)))
                        gammas
                   = imap
                       (fun j c =>
                          clip (c - 10 * grad * zval zs (i + j))
                            ((1 - tau) * tval ts (i + j))
                            ((1 + tau) * tval ts (i + j)))
                       (gamma :: gammas)).
      { simpl.
        rewrite Nat.add_0_r, (zval_lookup _ _ _ Hz), (tval_lookup _ _ _ Ht).
        f_equal. apply imap_ext. intros j c _. simpl.
        replace (i + S j)%nat with (S (i + j)) by lia. reflexivity. }
      simpl in Hl |- *. rewrite <- Hl. reflexivity.
    + intros j Hj. replace (S i + j)%nat with (i + S j)%nat by lia.
      apply Hkeys. simpl. lia.
    + lia.
Qed.

Lemma apply_loop_keys (self self' : dizo) (new new' : model)
    (anchors : list parameter) (it it' : list R) (ap : bool) :
  apply_loop self new anchors it ap = Ok (self', new', it') ->
  forall name, is_Some (alpha self !! name) -> is_Some (alpha self' !! name).
Proof.
  revert self self' new' anchors it it';
    induction new as [|[nm p] new IH];
    intros self self' new' anchors it it' H name Hname.
  - simpl in H. injection H as <- <- <-. exact Hname.
  - destruct anchors as [|a anchors].
    { simpl in H. injection H as <- <- <-. exact Hname. }
    simpl in H.
    destruct (mem nm (exclude_list self)); simpl in H.
    + apply bind_ok in H as ([[s1 rest] it1] & Hrec & H).
      simpl in H. injection H as <- <- <-. eapply IH; eauto.
    + apply bind_ok in H as ([al it1] & Hpr & H). simpl in H.
      apply bind_ok in H as ([[s1 rest] it2] & Hrec & H).
      simpl in H. injection H as <- <- <-.
      eapply IH; [exact Hrec|]. simpl.
      apply lookup_insert_is_Some.
      destruct (decide (nm = name)); auto.
Qed.

(** A reversal returns when the cache holds what a projection of the same
    candidate left. *)
Lemma reverse_after_apply (self self' d : dizo) (new new' : model)
    (anchors : list parameter) (it it' : list R) (ap : bool) :
  apply_loop self new anchors it ap = Ok (self', new', it') ->
  exclude_list d = exclude_list self ->
  (forall name, is_Some (alpha self' !! name) -> is_Some (alpha d !! name)) ->
  exists new2,
    reverse_loop d new' anchors = Ok new2 /\ map fst new2 = map fst new.
Proof.
  revert self self' new' anchors it it';
    induction new as [|[nm p] new IH];
    intros self self' new' anchors it it' H Hex Hal.
  - simpl in H. injection H as <- <- <-. exists []. auto.
  - destruct anchors as [|a anchors].
    { simpl in H. injection H as <- <- <-. simpl. eauto. }
    simpl in H.
    destruct (mem nm (exclude_list self)) eqn:Hmem; simpl in H.
    + apply bind_ok in H as ([[s1 rest] it1] & Hrec & H).
      simpl in H. injection H as <- <- <-.
      destruct (IH _ _ _ _ _ _ Hrec Hex Hal) as (n2 & Hr & Hn).
      simpl. rewrite Hex, Hmem. simpl. rewrite Hr. simpl.
      eexists. split; [reflexivity|]. simpl. f_equal. exact Hn.
    + apply bind_ok in H as ([al it1] & Hpr & H). simpl in H.
      apply bind_ok in H as ([[s1 rest] it2] & Hrec & H).
      simpl in H. injection H as <- <- <-.
      destruct (IH _ _ _ _ _ _ Hrec Hex Hal) as (n2 & Hr & Hn).
      destruct (Hal nm) as [al' Hal'].
      { eapply apply_loop_keys; [exact Hrec|]. simpl.
        rewrite lookup_insert_eq. eauto. }
      simpl. rewrite Hex, Hmem. simpl. rewrite Hal', Hr. simpl.
      eexists. split; [reflexivity|]. simpl. f_equal. exact Hn.
Qed.

Lemma radii_needed_names (exclude : list string) (new new' : model)
    (anchors : list parameter) :
  map fst new = map fst new' ->
  radii_needed exclude new anchors = radii_needed exclude new' anchors.
Proof.
  unfold radii_needed.
  revert new' anchors; induction new as [|[nm p] new IH];
    intros [|[nm' p'] new'] anchors Hn; try discriminate; [reflexivity|].
  simpl in Hn. injection Hn as <- Hn.
  destruct anchors as [|a anchors]; [reflexivity|]. simpl.
  destruct (mem nm exclude); simpl; [|f_equal]; apply IH; exact Hn.
Qed.

(** A projection followed by its reversal, on a trust region that holds
    enough radii. *)
Lemma apply_then_reverse (self : dizo) (new pre_trained : model) (see : bool) :
  (radii_needed (exclude_list self) new (parameters pre_trained)
   <= length (constraints self))%nat ->
  exists self1 new1 rest new2,
    apply_constraints self new pre_trained (constraints self) false see
    = Ok (self1, new1, rest)
    /\ reverse_constraints self1 new1 pre_trained = Ok new2
    /\ constraints self1 = constraints self
    /\ init self1 = init self
    /\ exclude_list self1 = exclude_list self
    /\ norm_mode self1 = norm_mode self
    /\ map fst new2 = map fst new.
Proof.
  intros Hlen. unfold apply_constraints, reverse_constraints.
  destruct (apply_loop_total (with_cache self ∅ []) new
              (parameters pre_trained) (constraints self) false Hlen)
    as ([[self1 new1] rest] & Happ).
  pose proof (apply_loop_frame _ _ _ _ _ _ _ _ Happ)
    as (Hmode & Hex & Hcs & Hinit & Hn & _).
  destruct (reverse_after_apply _ _ self1 _ _ _ _ _ _ Happ Hex)
    as (new2 & Hrev & Hn2); [auto|].
  exists self1, new1, rest, new2. rewrite Happ.
  repeat split; auto.
Qed.

(** A probe returns on a trust region with one radius per parameter that
    is not excluded, each with its norm; the radii it leaves are
    [stepped_radii] of those it found, for the gradient estimate of two
    evaluations of the loss. *)
Lemma zo_probe_returns (self : dizo) (ts : list R) (new pre_trained : model)
    (b : batch) (g : gen) :
  length (constraints self)
  = radii_needed (exclude_list self) new (parameters pre_trained) ->
  (length (constraints self) <= length ts)%nat ->
  exists self' new' g' zs m1 m2,
    zo_probe self ts new pre_trained (Some b) g = Ok (self', new', g')
    /\ constraints self'
       = stepped_radii ((forward_loss m1 b - forward_loss m2 b) / 0.4) ts zs
           (constraints self)
    /\ init self' = init self
    /\ exclude_list self' = exclude_list self
    /\ norm_mode self' = norm_mode self
    /\ map fst new' = map fst new.
Proof.
  intros Hneed Hts. unfold zo_probe, perturb_gamma.
  destruct (perturb_fresh_eq 1 ts 0 (constraints self) ∅ g)
    as (zs & g1 & E1 & K1 & _); [simpl; lia|].
  rewrite E1. clear E1. cbn [mbind result_bind]. cbv beta iota zeta.
  set (cs1 := imap (fun j gamma => gamma + 1 * zval zs (0 + j) * 0.2)
                (constraints self)).
  assert (L1 : length cs1 = length (constraints self))
    by apply length_imap.
  destruct (apply_then_reverse (with_constraints self cs1) new pre_trained
              false)
    as (s2 & new1 & r1 & new2 & E2 & E3 & C2 & I2 & X2 & M2 & N2).
  { simpl. lia. }
  rewrite E2. clear E2.
  cbn [mbind result_bind loss_on]. cbv beta iota zeta.
  rewrite E3. clear E3. cbn [mbind result_bind]. cbv beta iota zeta.
  simpl in C2, I2, X2, M2.
  rewrite C2, perturb_kept_eq by (intros j Hj; apply K1; lia).
  cbn [mbind result_bind]. cbv beta iota zeta.
  set (cs2 := imap (fun j gamma => gamma + -2 * zval zs (0 + j) * 0.2) cs1).
  assert (L2 : length cs2 = length (constraints self))
    by (unfold cs2; rewrite length_imap; exact L1).
  destruct (apply_then_reverse (with_constraints s2 cs2) new2 pre_trained
              true)
    as (s3 & new3 & r3 & new4 & E4 & E5 & C4 & I4 & X4 & M4 & N4).
  { simpl. rewrite X2, (radii_needed_names _ new2 new) by exact N2. lia. }
  rewrite E4. clear E4.
  cbn [mbind result_bind loss_on]. cbv beta iota zeta.
  rewrite E5. clear E5. cbn [mbind result_bind]. cbv beta iota zeta.
  simpl in C4, I4, X4, M4.
  rewrite C4, perturb_kept_eq by (intros j Hj; apply K1; lia).
  cbn [mbind result_bind]. cbv beta iota zeta.
  set (cs3 := imap (fun j gamma => gamma + 1 * zval zs (0 + j) * 0.2) cs2).
  assert (L3 : length cs3 = length (constraints self))
    by (unfold cs3; rewrite length_imap; exact L2).
  simpl constraints at 1.
  rewrite update_gammas_eq by (try (intros j Hj; apply K1); lia).
  cbn [mbind result_bind]. cbv beta iota zeta.
  eexists _, new4, g1, zs, new1, new3. split; [reflexivity|].
  simpl. split; [|repeat split; congruence].
  unfold stepped_radii, cs3, cs2, cs1.
  apply list_eq. intros j. rewrite !list_lookup_imap.
  destruct (constraints self !! j); reflexivity.
Qed.

Lemma stepped_radii_length (grad : R) (ts : list R) (zs : gmap nat R)
    (gammas : list R) :
  length (stepped_radii grad ts zs gammas) = length gammas.
Proof. apply length_imap. Qed.

(** [zo_forward] without [apply] returns under the same condition; the
    radii it steps from are the norms when the flag is set. *)
Lemma zo_forward_returns (self : dizo) (new pre_trained : model) (b : batch)
    (g : gen) :
  length (constraints self)
  = radii_needed (exclude_list self) new (parameters pre_trained) ->
  let ts := deviation_norms (exclude_list self) new (parameters pre_trained) in
  exists self' new' g' zs m1 m2,
    zo_forward self new pre_trained (Some b) false g = Ok (self', new', g')
    /\ constraints self'
       = stepped_radii ((forward_loss m1 b - forward_loss m2 b) / 0.4) ts zs
           (if init self then ts else constraints self)
    /\ init self' = init self
    /\ exclude_list self' = exclude_list self
    /\ norm_mode self' = norm_mode self
    /\ map fst new' = map fst new.
Proof.
  intros Hneed ts.
  assert (Hts : length (constraints self) = length ts) by exact Hneed.
  destruct (init self) eqn:Hinit.
  - rewrite (zo_forward_flagged self new pre_trained (Some b) g Hinit)
      by (fold ts; lia).
    fold ts. rewrite Hts, firstn_all.
    destruct (zo_probe_returns (with_constraints self ts) ts new pre_trained
                b g)
      as (s' & n' & g' & zs & m1 & m2 & E & C & I & X & M & N).
    { simpl. rewrite <- Hts. exact Hneed. }
    { simpl. lia. }
    exists s', n', g', zs, m1, m2. simpl in *.
    repeat split; auto. congruence.
  - unfold zo_forward. rewrite Hinit. cbn [mbind result_bind].
    fold ts.
    destruct (zo_probe_returns self ts new pre_trained b g)
      as (s' & n' & g' & zs & m1 & m2 & E & C & I & X & M & N);
      [exact Hneed|lia|].
    exists s', n', g', zs, m1, m2. repeat split; auto. congruence.
Qed.

(** The final projection of a run returns when the trust region holds
    enough radii, and leaves them as they are. *)
Lemma commit_returns (d : dizo) (m pre : model) (g : gen) :
  (radii_needed (exclude_list d) m (parameters pre)
   <= length (constraints d))%nat ->
  exists d' m',
    zo_forward d m pre None true g = Ok (d', m', g)
    /\ constraints d' = constraints d
    /\ init d' = init d
    /\ exclude_list d' = exclude_list d
    /\ norm_mode d' = norm_mode d
    /\ map fst m' = map fst m.
Proof.
  intros Hlen. unfold zo_forward, apply_constraints.
  destruct (apply_loop_total (with_cache d ∅ []) m (parameters pre)
              (constraints d) true Hlen)
    as ([[d' m'] rest] & Happ).
  pose proof (apply_loop_frame _ _ _ _ _ _ _ _ Happ)
    as (Hmode & Hex & Hcs & Hinit & Hn & _).
  rewrite Happ. exists d', m'. repeat split; auto.
Qed.

(** One turn of the loop returns when the loader is not empty. *)
Lemma zo_iter_returns (self : dizo_trainer) (m base_model : model) (g : gen) :
  pgmloader self <> [] ->
  length (constraints (the_dizo self))
  = radii_needed (exclude_list (the_dizo self)) m (parameters base_model) ->
  let ts :=
    deviation_norms (exclude_list (the_dizo self)) m
      (parameters base_model) in
  exists self' m' g' zs m1 m2 b,
    zo_iter base_model (self, m, g) = Ok (self', m', g')
    /\ constraints (the_dizo self')
       = stepped_radii ((forward_loss m1 b - forward_loss m2 b) / 0.4) ts zs
           (if init (the_dizo self) then ts
            else constraints (the_dizo self))
    /\ init (the_dizo self') = false
    /\ exclude_list (the_dizo self') = exclude_list (the_dizo self)
    /\ norm_mode (the_dizo self') = norm_mode (the_dizo self)
    /\ pgmloader self' = pgmloader self
    /\ pre_trained self' = pre_trained self
    /\ max_iters self' = max_iters self
    /\ map fst m' = map fst m.
Proof.
  intros Hloader Hneed ts. unfold zo_iter.
  assert (Hnext : exists b it, next_data self = Ok (b, it)).
  { unfold next_data. destruct (dataset_iterator self) as [|b it]; [|eauto].
    destruct (pgmloader self) as [|b it]; [congruence|eauto]. }
  destruct Hnext as (b & it & ->). cbn [mbind result_bind].
  destruct (zo_forward_returns (the_dizo self) m base_model b g Hneed)
    as (d' & m' & g' & zs & m1 & m2 & E & C & I & X & M & N).
  rewrite E. cbn [mbind result_bind].
  eexists _, m', g', zs, m1, m2, b. split; [reflexivity|].
  simpl. repeat split; auto.
Qed.



(** A run of one turn, in closed form. *)
Lemma dizo_zo_iters_once (self : dizo_trainer) (m base_model : model)
    (g : gen) :
  max_iters self = 1%Z ->
  pgmloader self <> [] ->
  length (constraints (the_dizo self))
  = radii_needed (exclude_list (the_dizo self)) m (parameters base_model) ->
  (radii_needed (exclude_list (the_dizo self)) m
     (parameters (pre_trained self))
   <= length (constraints (the_dizo self)))%nat ->
  let ts :=
    deviation_norms (exclude_list (the_dizo self)) m
      (parameters base_model) in
  exists self' m' g' zs m1 m2 b,
    dizo_zo_iters self m base_model false g = Ok (self', m', g')
    /\ constraints (the_dizo self')
       = stepped_radii ((forward_loss m1 b - forward_loss m2 b) / 0.4) ts zs
           ts
    /\ init (the_dizo self') = false
    /\ exclude_list (the_dizo self') = exclude_list (the_dizo self)
    /\ pgmloader self' = pgmloader self
    /\ pre_trained self' = pre_trained self
    /\ max_iters self' = max_iters self.
Proof.
  intros Hmax Hloader Hneed Hcommit ts. unfold dizo_zo_iters. cbn [negb].
  cbn [max_iters count with_dizo]. rewrite Hmax.
  change (Z.to_nat (1 - 0)) with 1%nat. cbn [zo_iters_loop].
  destruct (zo_iter_returns
              (with_dizo self (with_init (the_dizo self) true)
                 (dataset_iterator self) 0 (i self))
              m base_model g Hloader Hneed)
    as (s1 & m1 & g1 & zs & ma & mb & b & E & C & I & X & M & L & P & MX & N).
  simpl in C, X, M, L, P, MX. rewrite E. cbn [mbind result_bind].
  destruct (commit_returns (the_dizo s1) m1 (pre_trained s1) g1)
    as (d' & m'' & E' & C' & I' & X' & M' & N').
  { rewrite C, stepped_radii_length, X, P,
      (radii_needed_names _ m1 m) by exact N.
    fold ts. replace (length ts) with (length (constraints (the_dizo self)))
      by exact Hneed.
    exact Hcommit. }
  rewrite E'. cbn [mbind result_bind].
  eexists _, m'', g1, zs, ma, mb, b. split; [reflexivity|].
  simpl. subst ts. repeat split; congruence.
Qed.


End AdaptationFacts.

(** *** The adaptation on the concrete environment *)

Section AdaptationRuns.

Import DiZO.

Lemma l2norm_3_4 : l2norm (tsub [[3; 4]] [[0; 0]]) = 5.
Proof. simpl. apply l2norm_pair; lra. Qed.

Lemma l2norm_6_8 : l2norm (tsub [[6; 8]] [[0; 0]]) = 10.
Proof. simpl. apply l2norm_pair; lra. Qed.

Lemma clip_inside (x lo hi : R) : lo <= x <= hi -> clip x lo hi = x.
Proof.
  intros H. unfold clip, Rmin, Rmax.
  destruct (Rle_dec x lo); destruct (Rle_dec _ hi); lra.
Qed.

Lemma clip_below (x lo hi : R) : x <= lo <= hi -> clip x lo hi = lo.
Proof.
  intros H. unfold clip, Rmin, Rmax.
  destruct (Rle_dec x lo); destruct (Rle_dec _ hi); lra.
Qed.

(** With a flat loss the step leaves one radius where the clip puts it. *)
Lemma flat_step (t gamma : R) (zs : gmap nat R) :
  stepped_radii ((0 - 0) / 0.4) [t] zs [gamma]
  = [clip gamma ((1 - 0.2) * t) ((1 + 0.2) * t)].
Proof.
  unfold stepped_radii. simpl. f_equal. f_equal. lra.
Qed.

Lemma tuner_loader : pgmloader Toy.tuner <> [].
Proof. simpl. discriminate. Qed.


Lemma radius_lifecycle_witness :
  length [7] = length (constraints (the_dizo Toy.tuner))
  /\ (1 <= max_iters Toy.tuner)%Z
  /\ @dizo_zo_iters Toy.torch Toy.flat_objective
       (with_dizo Toy.tuner
          (with_init (with_constraints (the_dizo Toy.tuner) [7]) false)
          (dataset_iterator Toy.tuner) (count Toy.tuner) (i Toy.tuner))
       (Toy.solo [[3; 4]]) (Toy.solo [[0; 0]]) false 1%Z
     = @dizo_zo_iters Toy.torch Toy.flat_objective Toy.tuner
         (Toy.solo [[3; 4]]) (Toy.solo [[0; 0]]) false 1%Z.
Proof.
  assert (H1 : length [7] = length (constraints (the_dizo Toy.tuner)))
    by reflexivity.
  assert (H2 : (1 <= max_iters Toy.tuner)%Z) by (simpl; lia).
  split; [exact H1|]. split; [exact H2|].
  exact (proj1 (@radius_lifecycle Toy.torch Toy.flat_objective Toy.tuner
                  (Toy.solo [[3; 4]]) (Toy.solo [[0; 0]]) 1%Z [7] false
                  H1 H2)).
Defined.

(** C8, as stated, fails.  A first run on the weight [[3; 4]] leaves the
    radius 5 and the flag cleared.  A second run, after training has moved
    the weight to [[6; 8]], leaves the radius 10, the norm of the new
    deviation: the radius 5 was overwritten, where a turn that refines it
    leaves 8. *)
Lemma radius_lifecycle_counterexample :
  exists self1 m1 g1,
    @dizo_zo_iters Toy.torch Toy.flat_objective Toy.tuner (Toy.solo [[3; 4]])
      (Toy.solo [[0; 0]]) false 1%Z
    = Ok (self1, m1, g1)
    /\ init (the_dizo self1) = false
    /\ constraints (the_dizo self1) = [5]
    /\ (exists self2 m2 g2,
          @dizo_zo_iters Toy.torch Toy.flat_objective self1
            (Toy.solo [[6; 8]]) (Toy.solo [[0; 0]]) false g1
          = Ok (self2, m2, g2)
          /\ constraints (the_dizo self2) = [10])
    /\ (exists self3 m3 g3,
          @zo_iters_loop Toy.torch Toy.flat_objective 1 (Toy.solo [[0; 0]])
            (self1, Toy.solo [[6; 8]], g1)
          = Ok (self3, m3, g3)
          /\ constraints (the_dizo self3) = [8]).
Proof.
  destruct (@dizo_zo_iters_once Toy.torch Toy.flat_objective Toy.tuner
              (Toy.solo [[3; 4]]) (Toy.solo [[0; 0]]) 1%Z eq_refl
              tuner_loader eq_refl)
    as (self1 & m1 & g1 & zs & ma & mb & b & E & C & I & X & L & P & MX).
  { unfold radii_needed. simpl. lia. }
  change (forward_loss ma b) with 0 in C.
  change (forward_loss mb b) with 0 in C.
  change (deviation_norms (exclude_list (the_dizo Toy.tuner))
            (Toy.solo [[3; 4]]) (parameters (Toy.solo [[0; 0]])))
    with [l2norm (tsub [[3; 4]] [[0; 0]])] in C.
  rewrite flat_step, l2norm_3_4, clip_inside in C by lra.
  exists self1, m1, g1. split; [exact E|]. split; [exact I|].
  split; [exact C|].
  assert (Hneed : length (constraints (the_dizo self1))
                  = radii_needed (exclude_list (the_dizo self1))
                      (Toy.solo [[6; 8]]) (parameters (Toy.solo [[0; 0]])))
    by (rewrite C, X; reflexivity).
  assert (Hloader : pgmloader self1 <> [])
    by (rewrite L; exact tuner_loader).
  split.
  - destruct (@dizo_zo_iters_once Toy.torch Toy.flat_objective self1
                (Toy.solo [[6; 8]]) (Toy.solo [[0; 0]]) g1)
      as (self2 & m2 & g2 & zs2 & mc & md & b2 & E2 & C2 & _);
      [rewrite MX; reflexivity|exact Hloader|exact Hneed| |].
    { rewrite C, X, P. unfold radii_needed. simpl. lia. }
    rewrite X in C2.
    change (forward_loss mc b2) with 0 in C2.
    change (forward_loss md b2) with 0 in C2.
    change (deviation_norms (exclude_list (the_dizo Toy.tuner))
              (Toy.solo [[6; 8]]) (parameters (Toy.solo [[0; 0]])))
      with [l2norm (tsub [[6; 8]] [[0; 0]])] in C2.
    rewrite flat_step, l2norm_6_8, clip_inside in C2 by lra.
    exists self2, m2, g2. split; [exact E2|exact C2].
  - destruct (@zo_iter_returns Toy.torch Toy.flat_objective self1
                (Toy.solo [[6; 8]]) (Toy.solo [[0; 0]]) g1 Hloader Hneed)
      as (self3 & m3 & g3 & zs3 & me & mf & b3 & E3 & C3 & _).
    rewrite I, C, X in C3.
    change (forward_loss me b3) with 0 in C3.
    change (forward_loss mf b3) with 0 in C3.
    change (deviation_norms (exclude_list (the_dizo Toy.tuner))
              (Toy.solo [[6; 8]]) (parameters (Toy.solo [[0; 0]])))
      with [l2norm (tsub [[6; 8]] [[0; 0]])] in C3.
    rewrite flat_step, l2norm_6_8, clip_below in C3 by lra.
    replace ((1 - 0.2) * 10) with 8 in C3 by lra.
    exists self3, m3, g3. split; [|exact C3].
    cbn [zo_iters_loop]. rewrite E3. reflexivity.
Qed.

End AdaptationRuns.

(** * Further properties *)

(** ** The estimator *)

Section EstimatorMore.

Context {TR : TorchRandom} {NP : NumpyRandom} {OBJ : Objective}.

Import MeZO.






(** X1. Two perturbations that reseed alike compose into one whose scaling
    factor is the sum of theirs, drawn over the same noise; a perturbation
    followed by the opposite one puts every parameter back. *)
Theorem zo_perturbations_compose `{!TorchRandomSized TR}
    (self : trainer) (rs : option Z) (c d : R) :
  named_parameters_to_optim
    (zo_perturb_parameters rs d (zo_perturb_parameters rs c self))
  = shifted (zo_eps (args self)) (c + d) (named_parameters_to_optim self)
      (perturb_noise rs c self)
  /\ perturb_noise rs d (zo_perturb_parameters rs c self)
     = perturb_noise rs c self
  /\ named_parameters_to_optim
       (zo_perturb_parameters rs (- c) (zo_perturb_parameters rs c self))
     = named_parameters_to_optim self.
Proof.
  set (ps := named_parameters_to_optim self).
  set (eps := zo_eps (args self)).
  set (zs := fst (draws (sizes ps) (manual_seed (seed_used rs self)))).
  assert (Hzs : map shape zs = sizes ps) by apply draws_sizes.
  assert (Hnoise : perturb_noise rs c self = zs).
  { unfold perturb_noise. rewrite perturb_loop_draws. reflexivity. }
  assert (Hcomp : forall e,
    named_parameters_to_optim
      (zo_perturb_parameters rs e (zo_perturb_parameters rs c self))
    = shifted eps (c + e) ps zs).
  { intros e. rewrite (zo_perturb_parameters_eq rs e).
    rewrite (zo_perturb_parameters_eq rs c).
    cbn [with_params named_parameters_to_optim args fst snd].
    assert (Hseed : forall g ev,
              seed_used rs (with_params self (shifted eps c ps zs) g ev)
              = seed_used rs self) by (intros; destruct rs; reflexivity).
    fold ps eps. rewrite Hseed. fold zs.
    rewrite (shifted_sizes eps c ps zs Hzs). fold zs.
    apply shifted_twice. exact Hzs. }
  rewrite Hnoise. split; [apply Hcomp|]. split.
  - unfold perturb_noise. rewrite perturb_loop_draws.
    rewrite (zo_perturb_parameters_eq rs c).
    cbn [with_params named_parameters_to_optim args fst snd].
    fold ps eps zs. rewrite (shifted_sizes eps c ps zs Hzs).
    destruct rs; reflexivity.
  - rewrite Hcomp. replace (c + - c) with 0 by lra.
    apply shifted_zero. exact Hzs.
Qed.


(** X3. On a loss that is affine along the drawn direction, with slope [s]
    per unit of displacement, the projected gradient a step stores is
    [s], whatever the perturbation scale. *)
Theorem zo_step_slope `{!TorchRandomSized TR}
    (self self' : trainer) (inputs : batch) (loss a s : R) :
  zo_step self inputs = Returned loss self' ->
  zo_eps (args self) <> 0 ->
  let seed := fst (randint 1000000000 (np_rng self)) in
  let ps := named_parameters_to_optim self in
  let eps := zo_eps (args self) in
  let zs := fst (draws (sizes ps) (manual_seed seed)) in
  forward_loss (shifted eps 1 ps zs) inputs = a + s * eps ->
  forward_loss (shifted eps (-1) ps zs) inputs = a - s * eps ->
  projected_grad self' = s.
Proof.
  intros Hret Heps seed ps eps zs H1 H2.
  destruct (zo_step_cases self inputs)
    as (at_assert & _ & _ & Hpg & _ & _ & _ & Hstep).
  rewrite Hret in Hstep.
  destruct (gradient_accumulation_steps (args self) =? 1)%Z;
    [|discriminate].
  injection Hstep as -> ->.
  cbn [with_params projected_grad]. rewrite Hpg.
  fold seed ps eps zs. rewrite H1, H2. field. exact Heps.
Qed.


End EstimatorMore.

(** ** The projection *)

Section ProjectionMore.

Import DiZO.

Lemma radii_needed_cons (exclude : list string) (name : string)
    (p a : parameter) (new : model) (anchors : list parameter) :
  radii_needed exclude ((name, p) :: new) (a :: anchors)
  = ((if mem name exclude then 0 else 1)
     + radii_needed exclude new anchors)%nat.
Proof.
  unfold radii_needed. simpl. destruct (mem name exclude); reflexivity.
Qed.

(** The projection stops at the first parameter it has no radius for. *)
Lemma apply_loop_short (self : dizo) (new : model)
    (anchors : list parameter) (it : list R) (ap : bool) :
  (length it < radii_needed (exclude_list self) new anchors)%nat ->
  apply_loop self new anchors it ap = Raise StopIteration.
Proof.
  revert self anchors it; induction new as [|[name p] new IH];
    intros self anchors it Hlen.
  - unfold radii_needed in Hlen. simpl in Hlen. lia.
  - destruct anchors as [|a anchors];
      [unfold radii_needed in Hlen; simpl in Hlen; lia|].
    rewrite radii_needed_cons in Hlen. simpl.
    destruct (mem name (exclude_list self)) eqn:Hmem; simpl.
    + rewrite IH by (simpl in Hlen; lia). reflexivity.
    + destruct it as [|r it]; [reflexivity|].
      rewrite project_ratio_eq. simpl.
      rewrite IH by (simpl in *; lia). reflexivity.
Qed.

(** The radii a projection that returned has not used. *)
Lemma apply_loop_rest (self self' : dizo) (new new' : model)
    (anchors : list parameter) (it it' : list R) (ap : bool) :
  apply_loop self new anchors it ap = Ok (self', new', it') ->
  it' = drop (radii_needed (exclude_list self) new anchors) it.
Proof.
  revert self self' new' anchors it it';
    induction new as [|[name p] new IH];
    intros self self' new' anchors it it' H.
  - simpl in H. injection H as <- <- <-. reflexivity.
  - destruct anchors as [|a anchors].
    { simpl in H. injection H as <- <- <-. reflexivity. }
    rewrite radii_needed_cons. simpl in H.
    destruct (mem name (exclude_list self)) eqn:Hmem; simpl in H.
    + apply bind_ok in H as ([[s1 rest] it1] & Hrec & H).
      simpl in H. injection H as <- <- <-. exact (IH _ _ _ _ _ _ Hrec).
    + apply bind_ok in H as ([al it1] & Hpr & H). simpl in H.
      apply bind_ok in H as ([[s1 rest] it2] & Hrec & H).
      simpl in H. injection H as <- <- <-.
      apply project_ratio_inv in Hpr as (r & -> & _).
      exact (IH _ _ _ _ _ _ Hrec).
Qed.

(** X5. A projection raises [StopIteration] exactly when its iterator holds
    fewer radii than there are parameters to project; otherwise it returns,
    having taken one radius per such parameter from the front of the
    iterator. *)
Theorem apply_constraints_radii (self : dizo) (new pre_trained : model)
    (radii : list R) (ap see : bool) :
  let needed :=
    radii_needed (exclude_list self) new (parameters pre_trained) in
  ((length radii < needed)%nat ->
   apply_constraints self new pre_trained radii ap see = Raise StopIteration)
  /\ ((needed <= length radii)%nat ->
      exists self1 new1,
        apply_constraints self new pre_trained radii ap see
        = Ok (self1, new1, drop needed radii)).
Proof.
  intros needed. unfold apply_constraints. split; intros Hlen.
  - apply apply_loop_short. exact Hlen.
  - destruct (apply_loop_total (with_cache self ∅ []) new
                (parameters pre_trained) radii ap Hlen)
      as ([[self1 new1] rest] & Happ).
    exists self1, new1. rewrite Happ. f_equal. f_equal.
    exact (apply_loop_rest _ _ _ _ _ _ _ _ Happ).
Qed.

Lemma apply_loop_cache (self self' : dizo) (new new' : model)
    (anchors : list parameter) (it it' : list R) (ap : bool) :
  apply_loop self new anchors it ap = Ok (self', new', it') ->
  include_list self'
  = include_list self ++ included_names (exclude_list self) new anchors
  /\ forall name,
       is_Some (alpha self' !! name)
       <-> is_Some (alpha self !! name)
           \/ In name (included_names (exclude_list self) new anchors).
Proof.
  revert self self' new' anchors it it';
    induction new as [|[nm p] new IH];
    intros self self' new' anchors it it' H.
  - simpl in H. injection H as <- <- <-. simpl.
    rewrite app_nil_r. split; [reflexivity|]. intros; tauto.
  - destruct anchors as [|a anchors].
    { simpl in H. injection H as <- <- <-. simpl.
      rewrite app_nil_r. split; [reflexivity|]. intros; tauto. }
    simpl in H. simpl included_names.
    destruct (mem nm (exclude_list self)) eqn:Hmem; simpl in H |- *.
    + apply bind_ok in H as ([[s1 rest] it1] & Hrec & H).
      simpl in H. injection H as <- <- <-. exact (IH _ _ _ _ _ _ Hrec).
    + apply bind_ok in H as ([al it1] & Hpr & H). simpl in H.
      apply bind_ok in H as ([[s1 rest] it2] & Hrec & H).
      simpl in H. injection H as <- <- <-.
      destruct (IH _ _ _ _ _ _ Hrec) as [Hincl Hal]. simpl in Hincl, Hal.
      split; [rewrite Hincl, <- app_assoc; reflexivity|].
      intros name. rewrite Hal, lookup_insert_is_Some.
      destruct (decide (nm = name)) as [->|Hne]; [tauto|].
      split; [intros [[H|[_ H]]|H]|intros [H|[H|H]]]; tauto.
Qed.

(** X6. A projection that returns starts its cache afresh: [include_list]
    is the list of the names it projected, in order, and [alpha] has an
    entry for those names and no other, whatever the cache held before. *)
Theorem apply_constraints_cache (self self1 : dizo)
    (new new1 pre_trained : model) (radii rest : list R) (ap see : bool) :
  apply_constraints self new pre_trained radii ap see
  = Ok (self1, new1, rest) ->
  include_list self1
  = included_names (exclude_list self) new (parameters pre_trained)
  /\ forall name,
       is_Some (alpha self1 !! name) <-> In name (include_list self1).
Proof.
  intros H. unfold apply_constraints in H.
  destruct (apply_loop_cache _ _ _ _ _ _ _ _ H) as [Hincl Hal].
  simpl in Hincl, Hal. split; [exact Hincl|].
  intros name. rewrite Hal, Hincl, lookup_empty.
  split; [intros [[x Hx]|Hin]; [discriminate|exact Hin]|auto].
Qed.

(** X7. A reversal returns exactly when the cache has a ratio for every
    name it has to reverse, and raises [KeyError] otherwise; on a trust
    region that has projected nothing it raises as soon as one parameter
    is not excluded. *)
Theorem reverse_constraints_keys (self : dizo) (new pre_trained : model) :
  let names :=
    included_names (exclude_list self) new (parameters pre_trained) in
  ((forall name, In name names -> is_Some (alpha self !! name)) ->
   exists new2, reverse_constraints self new pre_trained = Ok new2)
  /\ ((exists name, In name names /\ alpha self !! name = None) ->
      reverse_constraints self new pre_trained = Raise KeyError).
Proof.
  intros names. subst names. unfold reverse_constraints.
  generalize (parameters pre_trained) as anchors.
  induction new as [|[nm p] new IH]; intros anchors.
  - simpl. split; [eauto|]. intros (name & [] & _).
  - destruct anchors as [|a anchors].
    { simpl. split; [eauto|]. intros (name & [] & _). }
    destruct (IH anchors) as [IHok IHraise]. simpl.
    destruct (mem nm (exclude_list self)) eqn:Hmem; simpl.
    + split.
      * intros Hall. destruct (IHok Hall) as (n2 & ->). simpl. eauto.
      * intros Hmiss. rewrite (IHraise Hmiss). reflexivity.
    + split.
      * intros Hall. destruct (Hall nm) as [al ->]; [simpl; auto|].
        destruct IHok as (n2 & ->); [intros; apply Hall; simpl; auto|].
        simpl. eauto.
      * intros (name & [<-|Hin] & Hnone).
        -- rewrite Hnone. reflexivity.
        -- destruct (alpha self !! nm); [|reflexivity].
           rewrite IHraise by eauto. reflexivity.
Qed.

(** *** Where the projection puts a parameter *)






End ProjectionMore.

(** ** The adaptation of the radii *)

Section AdaptationMore.

Import DiZO.

Context {TR : TorchRandom} {OBJ : Objective}.

(** X10. One probe moves the radii out and back: perturbing them by [+1]
    with fresh draws, then by [-2] and by [+1] with the draws recorded,
    returns each time, draws nothing after the first time, visits two sets
    of radii that are symmetric around the original ones, and leaves the
    original radii. *)
Theorem perturb_gamma_round_trip (self : dizo) (ts : list R) (g : gen) :
  (length (constraints self) <= length ts)%nat ->
  exists s1 s2 s3 zs g1,
    perturb_gamma self 1 ts None g = Ok (s1, zs, g1)
    /\ perturb_gamma s1 (-2) [] (Some zs) g1 = Ok (s2, zs, g1)
    /\ perturb_gamma s2 1 [] (Some zs) g1 = Ok (s3, zs, g1)
    /\ constraints s3 = constraints self
    /\ forall j gamma,
         constraints self !! j = Some gamma ->
         exists d,
           constraints s1 !! j = Some (gamma + d)
           /\ constraints s2 !! j = Some (gamma - d).
Proof.
  intros Hlen. unfold perturb_gamma.
  destruct (perturb_fresh_eq 1 ts 0 (constraints self) ∅ g)
    as (zs & g1 & E1 & K1 & _); [simpl; lia|].
  rewrite E1. cbn [mbind result_bind]. cbv beta iota zeta.
  set (cs1 := imap (fun j gamma => gamma + 1 * zval zs (0 + j) * 0.2)
                (constraints self)).
  assert (L1 : length cs1 = length (constraints self))
    by apply length_imap.
  set (cs2 := imap (fun j gamma => gamma + -2 * zval zs (0 + j) * 0.2) cs1).
  assert (L2 : length cs2 = length (constraints self))
    by (unfold cs2; rewrite length_imap; exact L1).
  set (cs3 := imap (fun j gamma => gamma + 1 * zval zs (0 + j) * 0.2) cs2).
  exists (with_constraints self cs1),
    (with_constraints (with_constraints self cs1) cs2),
    (with_constraints
       (with_constraints (with_constraints self cs1) cs2) cs3),
    zs, g1.
  split; [reflexivity|]. simpl constraints.
  rewrite !perturb_kept_eq
    by (intros j Hj; apply K1; rewrite ?L1, ?L2 in Hj; lia).
  cbn [mbind result_bind]. cbv beta iota zeta. fold cs2 cs3.
  split; [reflexivity|]. split; [reflexivity|]. split.
  - unfold cs3, cs2, cs1. apply list_eq. intros j.
    rewrite !list_lookup_imap.
    destruct (constraints self !! j) as [gamma|]; simpl; [|reflexivity].
    f_equal. lra.
  - intros j gamma Hj. exists (zval zs j * 0.2).
    unfold cs2, cs1. rewrite !list_lookup_imap, Hj. simpl.
    split; f_equal; lra.
Qed.

Lemma init_gammas_short (ts : list R) (i : nat) (gammas : list R) :
  (i <= length ts < i + length gammas)%nat ->
  init_gammas ts i gammas = Raise IndexError.
Proof.
  revert i; induction gammas as [|gamma gammas IH]; intros i Hlen;
    simpl in *; [lia|].
  destruct (ts !! i) as [t|] eqn:Ht; [|reflexivity].
  apply lookup_lt_Some in Ht. rewrite IH by lia. reflexivity.
Qed.

Lemma perturb_fresh_short (delta : R) (ts : list R) (i : nat)
    (gammas : list R) (zs : gmap nat R) (g : gen) :
  (i <= length ts < i + length gammas)%nat ->
  perturb_gamma_loop delta ts false i gammas zs g = Raise IndexError.
Proof.
  revert i zs g; induction gammas as [|gamma gammas IH]; intros i zs g Hlen;
    simpl in *; [lia|].
  destruct (ts !! i) as [t|] eqn:Ht; [|reflexivity].
  apply lookup_lt_Some in Ht. destruct (normal1 g) as [n g1]. simpl.
  rewrite IH by lia. reflexivity.
Qed.

Lemma zo_forward_surplus (self : dizo) (new pre_trained : model)
    (x : option batch) (g : gen) :
  (radii_needed (exclude_list self) new (parameters pre_trained)
   < length (constraints self))%nat ->
  zo_forward self new pre_trained x false g = Raise IndexError.
Proof.
  intros Hn. unfold radii_needed in Hn. unfold zo_forward.
  destruct (init self).
  - rewrite init_gammas_short by lia. reflexivity.
  - cbn [mbind result_bind]. unfold zo_probe, perturb_gamma.
    rewrite perturb_fresh_short by (simpl; lia). reflexivity.
Qed.

Lemma zo_forward_shortage (self : dizo) (new pre_trained : model)
    (x : option batch) (g : gen) :
  (length (constraints self)
   < radii_needed (exclude_list self) new (parameters pre_trained))%nat ->
  zo_forward self new pre_trained x false g = Raise StopIteration.
Proof.
  intros Hn.
  assert (Hprobe : forall d : dizo,
            exclude_list d = exclude_list self ->
            length (constraints d) = length (constraints self) ->
            zo_probe d
              (deviation_norms (exclude_list self) new
                 (parameters pre_trained))
              new pre_trained x g
            = Raise StopIteration).
  { intros d Hx Hl. unfold zo_probe, perturb_gamma.
    destruct (perturb_fresh_eq 1
                (deviation_norms (exclude_list self) new
                   (parameters pre_trained))
                0 (constraints d) ∅ g)
      as (zs & g1 & E1 & _).
    { unfold radii_needed in Hn. simpl. lia. }
    rewrite E1. cbn [mbind result_bind]. cbv beta iota zeta.
    unfold apply_constraints. rewrite apply_loop_short; [reflexivity|].
    simpl. rewrite length_imap, Hx, Hl. exact Hn. }
  unfold zo_forward. destruct (init self).
  - rewrite init_gammas_take
      by (unfold radii_needed in Hn; simpl; lia).
    cbn [mbind result_bind]. apply Hprobe; [reflexivity|].
    simpl. rewrite length_take, drop_0.
    unfold radii_needed in Hn. lia.
  - cbn [mbind result_bind]. apply Hprobe; reflexivity.
Qed.

(** X11. The zeroth-order step of the radii needs exactly one radius per
    parameter that is not excluded: with that many it returns, with more
    it raises [IndexError] before any evaluation of the loss, with fewer it
    raises [StopIteration] in its first projection; the flag [init] makes
    no difference. *)
Theorem zo_forward_radii_count (self : dizo) (new pre_trained : model)
    (b : batch) (g : gen) :
  let needed :=
    radii_needed (exclude_list self) new (parameters pre_trained) in
  let run := zo_forward self new pre_trained (Some b) false g in
  (length (constraints self) = needed -> exists res, run = Ok res)
  /\ ((needed < length (constraints self))%nat -> run = Raise IndexError)
  /\ ((length (constraints self) < needed)%nat ->
      run = Raise StopIteration).
Proof.
  intros needed run. subst run needed. split; [|split].
  - intros Hn.
    destruct (zo_forward_returns self new pre_trained b g Hn)
      as (s' & n' & g' & zs & m1 & m2 & E & _).
    eauto.
  - apply zo_forward_surplus.
  - apply zo_forward_shortage.
Qed.

(** *** The constructor *)

Lemma create_contraint_eq (exclude : list string) (m : model)
    (names : list string) (cs : list R) (ids : gmap nat string) :
  exists ids',
    create_contraint exclude m names cs ids
    = (names ++ radius_names exclude m,
       cs ++ map (fun _ => 0) (radius_names exclude m), ids')
    /\ forall k,
         ids' !! k
         = if (k <? length names)%nat then ids !! k
           else match radius_names exclude m !! (k - length names)%nat with
                | Some n => Some n
                | None => ids !! k
                end.
Proof.
  revert names cs ids; induction m as [|[name para] m IH];
    intros names cs ids.
  - exists ids. unfold radius_names. simpl. rewrite !app_nil_r.
    split; [reflexivity|]. intros k.
    destruct (k <? length names)%nat; reflexivity.
  - simpl. unfold radius_names. simpl.
    destruct (negb (mem name exclude) && requires_grad para); simpl.
    + fold (radius_names exclude m).
      destruct (IH (names ++ [name]) (cs ++ [0])
                  (<[(length (names ++ [name]) - 1)%nat := name]> ids))
        as (ids' & E & Hids).
      exists ids'. rewrite E, <- !app_assoc. split; [reflexivity|].
      intros k. rewrite Hids, length_app. simpl.
      replace (length names + 1 - 1)%nat with (length names) by lia.
      destruct (Nat.ltb_spec k (length names + 1)) as [H1|H1];
        destruct (Nat.ltb_spec k (length names)) as [H2|H2]; try lia.
      * apply lookup_insert_ne. lia.
      * replace k with (length names) by lia.
        rewrite Nat.sub_diag. simpl. apply lookup_insert_eq.
      * replace (k - length names)%nat
          with (S (k - (length names + 1))) by lia.
        simpl.
        destruct (radius_names exclude m !! (k - (length names + 1))%nat);
          [reflexivity|].
        apply lookup_insert_ne. lia.
    + apply IH.
Qed.

Lemma new_dizo_eq (m : model) (mode : string) (exclude : list string) :
  exclude_list (new_dizo m mode exclude) = exclude
  /\ norm_mode (new_dizo m mode exclude) = mode
  /\ constraints_name (new_dizo m mode exclude) = radius_names exclude m
  /\ constraints (new_dizo m mode exclude)
     = map (fun _ => 0) (radius_names exclude m)
  /\ (forall k,
        id_name_map (new_dizo m mode exclude) !! k
        = radius_names exclude m !! k)
  /\ init (new_dizo m mode exclude) = true.
Proof.
  unfold new_dizo.
  destruct (create_contraint_eq exclude m [] [] ∅) as (ids' & -> & Hids).
  simpl. repeat split. intros k. rewrite Hids. simpl.
  rewrite Nat.sub_0_r, lookup_empty.
  destruct (radius_names exclude m !! k); reflexivity.
Qed.

(** X12. A new trust region has one radius, equal to 0, per trainable
    parameter of the base model that is not excluded; [constraints_name]
    lists the names of these parameters in the order of the model, and
    [id_name_map] maps each position to the name [constraints_name] has
    there and nothing else. *)
Theorem new_dizo_radii (m : model) (mode : string) (exclude : list string) :
  let d := new_dizo m mode exclude in
  constraints_name d = radius_names exclude m
  /\ length (constraints d) = length (constraints_name d)
  /\ Forall (fun gamma => gamma = 0) (constraints d)
  /\ (forall k, id_name_map d !! k = constraints_name d !! k)
  /\ (forall name,
        In name (constraints_name d)
        <-> exists p, In (name, p) m /\ mem name exclude = false
                      /\ requires_grad p = true).
Proof.
  intros d. subst d.
  destruct (new_dizo_eq m mode exclude) as (_ & _ & Hn & Hc & Hi & _).
  rewrite Hn, Hc. split; [reflexivity|]. split; [apply length_map|].
  split; [|split].
  - apply Forall_forall. intros x Hx.
    apply list_elem_of_In, in_map_iff in Hx as (n & <- & _). reflexivity.
  - intros k. rewrite Hi. reflexivity.
  - intros name. unfold radius_names. rewrite in_map_iff. split.
    + intros ([n p] & <- & Hin). apply filter_In in Hin as [Hin Hf].
      simpl in Hf. apply andb_true_iff in Hf as [Hx Hg].
      exists p. simpl. split; [exact Hin|].
      split; [apply negb_true_iff; exact Hx|exact Hg].
    + intros (p & Hin & Hx & Hg). exists (name, p).
      split; [reflexivity|]. apply filter_In. split; [exact Hin|].
      simpl. rewrite Hx, Hg. reflexivity.
Qed.






End AdaptationMore.

(** ** The running loss *)

Section LoopMore.

Import Loop.

(** X14. A running loss that is NaN or infinite is never made finite
    again, whatever the step loss and with or without the filter; and
    where the filter does not act, a NaN or infinite step loss makes the
    running loss NaN or infinite. *)
Theorem running_loss_poisoned (logging_nan_inf_filter tpu : bool)
    (st : loop_state) (tr_loss_step : fval) :
  let bad v := isnan v || isinf v in
  (bad (tr_loss st) = true ->
   bad (tr_loss
          (accumulate_loss logging_nan_inf_filter tpu st tr_loss_step))
   = true)
  /\ (bad tr_loss_step = true ->
      logging_nan_inf_filter && negb tpu = false ->
      bad (tr_loss
             (accumulate_loss logging_nan_inf_filter tpu st tr_loss_step))
      = true).
Proof.
  intros bad. subst bad. unfold accumulate_loss. split.
  - intros Hbad. cbn [tr_loss].
    destruct (logging_nan_inf_filter && negb tpu
              && (isnan tr_loss_step || isinf tr_loss_step)).
    + destruct (tr_loss st); try discriminate; simpl; try reflexivity;
        match goal with
        | |- context [(?a <? ?b)%Z] => destruct (a <? b)%Z
        end; reflexivity.
    + destruct (tr_loss st); try discriminate;
        destruct tr_loss_step; reflexivity.
  - intros Hbad Hoff. cbn [tr_loss]. rewrite Hoff. cbn [andb].
    destruct tr_loss_step; try discriminate;
      destruct (tr_loss st); reflexivity.
Qed.

End LoopMore.

(** ** The set-up of the loop *)

Section SetupMore.

Import Setup.

(** X15. With a loader of known length and [args.max_steps > 0], the
    number of epochs is the least one whose update steps reach
    [max_steps]; an epoch has at least one update step; and a zero
    [gradient_accumulation_steps] is a division by zero. *)
Theorem training_steps_epochs (len gas args_max_steps : Z) (epochs : Q) :
  (0 < args_max_steps)%Z ->
  training_steps (Some len) 0 args_max_steps epochs = inl ZeroDivisionError
  /\ (gas <> 0%Z ->
      exists s,
        training_steps (Some len) gas args_max_steps epochs = inr s
        /\ max_steps s = args_max_steps
        /\ num_update_steps_per_epoch s = Z.max (len / gas) 1
        /\ ((num_train_epochs s - 1) * num_update_steps_per_epoch s
            < max_steps s
            <= num_train_epochs s * num_update_steps_per_epoch s)%Z).
Proof.
  intros Hmax. split; [reflexivity|]. intros Hgas.
  unfold training_steps.
  destruct (Z.eqb_spec gas 0) as [|_]; [contradiction|].
  destruct (Z.gtb_spec args_max_steps 0) as [_|]; [|lia].
  eexists. split; [reflexivity|]. simpl.
  split; [reflexivity|]. split; [reflexivity|].
  set (n := Z.max (len / gas) 1).
  assert (Hn : (1 <= n)%Z) by (unfold n; lia).
  pose proof (Z.div_mod args_max_steps n ltac:(lia)) as Hdm.
  pose proof (Z.mod_pos_bound args_max_steps n ltac:(lia)) as Hmod.
  destruct (Z.gtb_spec (args_max_steps mod n) 0); nia.
Qed.

Lemma multiples_upto (gas : Z) (len : nat) :
  (1 <= gas)%Z ->
  Z.of_nat
    (length
       (List.filter (fun step => ((Z.of_nat step + 1) mod gas =? 0)%Z)
          (seq 0 len)))
  = (Z.of_nat len / gas)%Z.
Proof.
  intros Hgas. induction len as [|len IH].
  - simpl. rewrite Z.div_0_l by lia. reflexivity.
  - rewrite seq_S, List.filter_app, length_app, Nat2Z.inj_add, IH.
    simpl List.filter.
    replace (Z.of_nat (S len)) with (Z.of_nat len + 1)%Z by lia.
    pose proof (Z.div_mod (Z.of_nat len) gas ltac:(lia)) as H1.
    pose proof (Z.mod_pos_bound (Z.of_nat len) gas ltac:(lia)) as B1.
    pose proof (Z.div_mod (Z.of_nat len + 1) gas ltac:(lia)) as H2.
    pose proof (Z.mod_pos_bound (Z.of_nat len + 1) gas ltac:(lia)) as B2.
    destruct (Z.eqb_spec ((Z.of_nat len + 1) mod gas) 0) as [E|E];
      simpl length; nia.
Qed.

Lemma filter_none {A : Type} (f : A -> bool) (l : list A) :
  (forall x, In x l -> f x = false) -> List.filter f l = [].
Proof.
  induction l as [|x l IH]; intros H; simpl; [reflexivity|].
  rewrite (H x) by (left; reflexivity).
  apply IH. intros y Hy. apply H. right. exact Hy.
Qed.

(** X16. A pass over a loader of [len >= 1] batches has exactly
    [num_update_steps_per_epoch] update steps, the number the set-up
    computes from the length of the loader; when [len] is larger than
    [gradient_accumulation_steps] and not a multiple of it, the last batch
    of the pass is not followed by an update. *)
Theorem update_steps_per_epoch (len : nat) (gas args_max_steps : Z)
    (epochs : Q) (s : steps) :
  (1 <= len)%nat ->
  (1 <= gas)%Z ->
  training_steps (Some (Z.of_nat len)) gas args_max_steps epochs = inr s ->
  Z.of_nat (length (update_steps len gas)) = num_update_steps_per_epoch s
  /\ ((gas < Z.of_nat len)%Z -> (Z.of_nat len mod gas <> 0)%Z ->
      ~ In (len - 1)%nat (update_steps len gas)).
Proof.
  intros Hlen Hgas Hs.
  assert (Hn : num_update_steps_per_epoch s
               = Z.max (Z.of_nat len / gas) 1).
  { unfold training_steps in Hs.
    destruct (Z.eqb_spec gas 0); [lia|].
    destruct (args_max_steps >? 0)%Z; injection Hs as <-; reflexivity. }
  rewrite Hn. unfold update_steps, is_update_step. split.
  - destruct (Z.leb_spec (Z.of_nat len) gas) as [Hle|Hgt].
    + destruct len as [|k]; [lia|].
      rewrite seq_S, List.filter_app. simpl List.filter.
      rewrite (proj2 (Z.eqb_eq (Z.of_nat k + 1) (Z.of_nat (S k))))
        by lia.
      rewrite orb_true_r, filter_none.
      * simpl length.
        assert (Hq : (Z.of_nat (S k) / gas <= 1)%Z).
        { apply Z.div_le_upper_bound; lia. }
        lia.
      * intros x Hx. apply in_seq in Hx.
        rewrite Z.mod_small by lia.
        apply orb_false_iff. split; apply Z.eqb_neq; lia.
    + rewrite (List.filter_ext
                 (fun step =>
                    ((Z.of_nat step + 1) mod gas =? 0)%Z || false && 
                      (Z.of_nat step + 1 =? Z.of_nat len)%Z)
                 (fun step => ((Z.of_nat step + 1) mod gas =? 0)%Z))
        by (intros x; apply orb_false_r).
      rewrite multiples_upto by exact Hgas.
      assert (Hq : (1 <= Z.of_nat len / gas)%Z).
      { apply Z.div_le_lower_bound; lia. }
      lia.
  - intros Hgt Hmod Hin. apply filter_In in Hin as [_ Hup].
    destruct (Z.leb_spec (Z.of_nat len) gas) as [|_]; [lia|].
    replace (Z.of_nat (len - 1) + 1)%Z with (Z.of_nat len) in Hup by lia.
    apply orb_true_iff in Hup as [H|H]; [|discriminate].
    apply Z.eqb_eq in H. contradiction.
Qed.

(** X17. The factor of the learning rate of the zeroth-order trainer:
    with [args.max_steps > 0] it falls linearly with the global step, from
    1 to 1/2 at the last step; with [args.max_steps < 0], the setting that
    leaves the length of the training to the number of epochs, it is at
    least 1 and grows with the global step; with [args.max_steps = 0] it
    is a division by zero. *)
Theorem lr_factor_range (global_step later_step args_max_steps : Z) :
  (0 <= global_step <= later_step)%Z ->
  lr_lambda global_step 0 = inl ZeroDivisionError
  /\ (args_max_steps <> 0%Z ->
      exists f f',
        lr_lambda global_step args_max_steps = inr f
        /\ lr_lambda later_step args_max_steps = inr f'
        /\ ((0 < args_max_steps)%Z ->
            f' <= f <= 1
            /\ ((later_step <= args_max_steps)%Z -> 1 / 2 <= f')
            /\ (later_step = args_max_steps -> f' = 1 / 2))
        /\ ((args_max_steps < 0)%Z -> 1 <= f <= f')).
Proof.
  intros [H0 Hle]. split; [reflexivity|]. intros Hmax.
  unfold lr_lambda.
  destruct (Z.eqb_spec (2 * args_max_steps) 0) as [|_]; [lia|].
  eexists _, _. split; [reflexivity|]. split; [reflexivity|].
  rewrite mult_IZR.
  assert (G0 : 0 <= IZR global_step) by (apply IZR_le; exact H0).
  assert (G1 : IZR global_step <= IZR later_step)
    by (apply IZR_le; exact Hle).
  split.
  - intros Hpos.
    assert (M : 0 < IZR args_max_steps) by (apply IZR_lt; exact Hpos).
    assert (D : 0 < / (2 * IZR args_max_steps))
      by (apply Rinv_0_lt_compat; lra).
    unfold Rdiv. split; [split; [nra|nra]|]. split.
    + intros Hlast.
      assert (L : IZR later_step <= IZR args_max_steps)
        by (apply IZR_le; exact Hlast).
      assert (E : IZR later_step * / (2 * IZR args_max_steps) <= 1 * / 2).
      { apply Rmult_le_reg_r with (2 * IZR args_max_steps); [lra|].
        rewrite Rmult_assoc, Rinv_l by lra. lra. }
      lra.
    + intros ->. field. lra.
  - intros Hneg.
    assert (M : IZR args_max_steps < 0) by (apply IZR_lt; exact Hneg).
    assert (D : / (2 * IZR args_max_steps) < 0)
      by (apply Rinv_lt_0_compat; lra).
    unfold Rdiv. split; nra.
Qed.

(** X18. Resuming from a checkpoint: the epochs and the batches to skip
    add up to [global_step * gradient_accumulation_steps] batches, the
    batches to skip being fewer than those of one epoch of update steps;
    with [ignore_data_skip] no batch is skipped. *)
Theorem resume_position_adds_up (global_step n gas : Z) :
  (0 <= global_step)%Z ->
  (0 < n)%Z ->
  (0 < gas)%Z ->
  exists epochs_trained steps_trained,
    resume_position global_step n gas false
    = inr (epochs_trained, steps_trained)
    /\ resume_position global_step n gas true = inr (epochs_trained, 0%Z)
    /\ (epochs_trained * (n * gas) + steps_trained
        = global_step * gas)%Z
    /\ (0 <= epochs_trained)%Z
    /\ (0 <= steps_trained < n * gas)%Z.
Proof.
  intros Hgs Hn Hgas. unfold resume_position.
  destruct (Z.eqb_spec n 0) as [|_]; [lia|].
  eexists _, _. split; [reflexivity|]. split; [reflexivity|]. simpl.
  pose proof (Z.div_mod global_step n ltac:(lia)) as Hdm.
  pose proof (Z.mod_pos_bound global_step n ltac:(lia)) as Hmod.
  assert (Hq : (0 <= global_step / n)%Z) by (apply Z.div_pos; lia).
  split; [nia|]. split; [exact Hq|]. nia.
Qed.

End SetupMore.

(** ** The parameters the trainer selects *)

Section SelectionMore.

Import DiZO Setup.

Context {TR : TorchRandom} {OBJ : Objective}.

Lemma mem_In (name : string) (names : list string) :
  mem name names = true <-> In name names.
Proof.
  unfold mem. rewrite existsb_exists. split.
  - intros (x & Hin & Heq). apply String.eqb_eq in Heq. subst. exact Hin.
  - intros Hin. exists name. split; [exact Hin|apply String.eqb_refl].
Qed.

Lemma mem_false (name : string) (names : list string) :
  mem name names = false <-> ~ In name names.
Proof.
  rewrite <- mem_In. destruct (mem name names); split; intros H.
  - discriminate.
  - contradiction H. reflexivity.
  - discriminate.
  - reflexivity.
Qed.

(** X19. What the trainer optimises and what the trust region leaves
    out.  Without a trainable parameter the selection raises
    [IndexError].  Unless the first trainable parameter is the token
    embedding of OPT, every trainable parameter is optimised and the keys
    of the state dict without [lora] in their name are left out.  If it
    is, the embedding is neither optimised nor adapted, and a trainable
    parameter is adapted exactly when its name has
    [self_attn.v_proj.weight] or [self_attn.k_proj.weight] in it. *)
Theorem select_parameters_spec (m : model) (state_dict_keys : list string) :
  let trainable := List.filter (fun np => requires_grad (snd np)) m in
  let embed := "model.decoder.embed_tokens.weight"%string in
  (trainable = [] ->
   select_parameters m state_dict_keys = Raise IndexError)
  /\ (forall first p rest,
        trainable = (first, p) :: rest ->
        exists optim exclude,
          select_parameters m state_dict_keys = Ok (optim, exclude)
          /\ (first <> embed ->
              optim = trainable
              /\ forall key,
                   In key exclude
                   <-> In key state_dict_keys
                       /\ contains "lora" key = false)
          /\ (first = embed ->
              optim = rest
              /\ In embed exclude
              /\ forall name q,
                   In (name, q) trainable ->
                   (mem name exclude = false
                    <-> contains "self_attn.v_proj.weight" name
                        || contains "self_attn.k_proj.weight" name
                        = true))).
Proof.
  intros trainable embed. unfold select_parameters. fold trainable.
  split; [intros ->; reflexivity|].
  intros first p rest Htr. rewrite Htr.
  destruct (String.eqb_spec first "model.decoder.embed_tokens.weight")
    as [Heq|Hne]; cbn [negb].
  - eexists _, _. split; [reflexivity|]. split; [contradiction|].
    intros _. split; [reflexivity|]. split; [left; reflexivity|].
    intros name q Hin. rewrite mem_false. cbn [In]. rewrite in_map_iff.
    destruct (contains "self_attn.v_proj.weight" name
              || contains "self_attn.k_proj.weight" name) eqn:Hvk.
    + split; [reflexivity|]. intros _ [Hemb|((n' & q') & Hn & Hf)].
      * subst name. vm_compute in Hvk. discriminate.
      * simpl in Hn. subst n'. apply filter_In in Hf as [_ Hf].
        simpl in Hf. apply orb_true_iff in Hvk.
        apply andb_true_iff in Hf as [Hv Hk].
        apply negb_true_iff in Hv, Hk. destruct Hvk; congruence.
    + split; [|discriminate]. intros Hnot. exfalso. apply Hnot. right.
      exists (name, q). split; [reflexivity|]. apply filter_In.
      split; [exact Hin|]. simpl.
      apply orb_false_iff in Hvk as [-> ->]. reflexivity.
  - eexists _, _. split; [reflexivity|]. split; [|contradiction].
    intros _. split; [reflexivity|]. intros key.
    rewrite filter_In, negb_true_iff. reflexivity.
Qed.


End SelectionMore.

(** ** The first-order adaptation *)

Section FirstOrderMore.

Import DiZO FirstOrder.

Context {TR : TorchRandom} {OBJ : Objective} {OPT : RadiusOptimizer OBJ}.



(** X22. A run of [dizo_iters] that is to adapt the radii does not get
    past its first turn: with an empty loader it raises [StopIteration],
    and otherwise [TypeError], the turn calling the trust region with a
    keyword [quant] that [forward] does not have. *)
Theorem dizo_iters_raises (self : dizo_trainer) (m base_model : model)
    (quant : bool) :
  (1 <= max_iters self)%Z ->
  (dataset_iterator self = [] -> pgmloader self = [] ->
   dizo_iters self m base_model false quant = Raise StopIteration)
  /\ (pgmloader self <> [] ->
      dizo_iters self m base_model false quant = Raise TypeError).
Proof.
  intros Hiters. unfold dizo_iters. cbn [negb].
  cbn [max_iters count with_dizo].
  destruct (Z.to_nat (max_iters self - 0)) as [|n] eqn:Hn; [lia|].
  cbn [fo_iters_loop fo_iter]. unfold next_data.
  cbn [dataset_iterator pgmloader with_dizo]. split.
  - intros -> ->. reflexivity.
  - intros Hloader.
    destruct (dataset_iterator self) as [|x it].
    + destruct (pgmloader self) as [|x it]; [congruence|]. reflexivity.
    + reflexivity.
Qed.

(** X23. [dizo_iters] never adapts the radii: whenever it returns, it was
    called to apply the projection or with no turn to run, the optimizer
    of the radii was not used, and the trainer holds the radii it held
    before. *)
Theorem dizo_iters_never_adapts (self self' : dizo_trainer)
    (m m' base_model : model) (apply quant : bool) :
  dizo_iters self m base_model apply quant = Ok (self', m') ->
  (apply = true \/ (max_iters self <= 0)%Z)
  /\ constraints (the_dizo self') = constraints (the_dizo self)
  /\ i self' = (i self + 1)%Z
  /\ exists rest,
       apply_constraints (the_dizo self) m (pre_trained self)
         (constraints (the_dizo self)) true false
       = Ok (the_dizo self', m', rest).
Proof.
  intros H. unfold dizo_iters in H.
  assert (Hcommit :
    forall s0 : dizo_trainer,
      the_dizo s0 = the_dizo self -> pre_trained s0 = pre_trained self ->
      i s0 = i self ->
      ('(d, m1, _) ←
         call ["apply"]%string (the_dizo s0) m (pre_trained s0) None true;
       Ok (with_dizo s0 d (dataset_iterator s0) (count s0) (i s0 + 1), m1))
      = Ok (self', m') ->
      constraints (the_dizo self') = constraints (the_dizo self)
      /\ i self' = (i self + 1)%Z
      /\ exists rest,
           apply_constraints (the_dizo self) m (pre_trained self)
             (constraints (the_dizo self)) true false
           = Ok (the_dizo self', m', rest)).
  { intros s0 Hd Hp Hi Hc. unfold call in Hc.
    change (forallb (fun k => mem k forward_parameters) ["apply"]%string)
      with true in Hc.
    cbv iota in Hc. unfold forward in Hc. rewrite Hd, Hp, Hi in Hc.
    apply bind_ok in Hc as ([[d m1] out] & Hf & Hc).
    apply bind_ok in Hf as ([[d1 m2] rest] & Happ & Hf).
    simpl in Hf. injection Hf as <- <- <-.
    simpl in Hc. injection Hc as <- <-. simpl.
    unfold apply_constraints in Happ.
    destruct (apply_loop_frame _ _ _ _ _ _ _ _ Happ) as (_ & _ & Hcs & _).
    split; [exact Hcs|]. split; [reflexivity|].
    exists rest. exact Happ. }
  destruct apply; cbn [negb] in H.
  - cbn [mbind result_bind] in H. cbv beta iota zeta in H.
    split; [left; reflexivity|]. apply (Hcommit self); auto.
  - cbn [max_iters count with_dizo] in H.
    destruct (Z.to_nat (max_iters self - 0)) as [|n] eqn:Hn.
    + cbn [fo_iters_loop mbind result_bind] in H.
      cbv beta iota zeta in H. split; [right; lia|].
      exact (Hcommit
               (with_dizo self (the_dizo self) (dataset_iterator self) 0
                  (i self))
               eq_refl eq_refl eq_refl H).
    + exfalso. cbn [fo_iters_loop fo_iter] in H. unfold next_data in H.
      cbn [dataset_iterator pgmloader with_dizo] in H.
      destruct (dataset_iterator self) as [|x it].
      * destruct (pgmloader self) as [|x it]; discriminate.
      * discriminate.
Qed.

End FirstOrderMore.

(** ** The labels of the loss *)

Section LabelsMore.

Import Labels.

Lemma lookup_repeat {A : Type} (x : A) (n j : nat) :
  (j < n)%nat -> repeat x n !! j = Some x.
Proof.
  revert j; induction n as [|n IH]; intros [|j] Hj; simpl; try lia.
  - reflexivity.
  - apply IH. lia.
Qed.

Lemma mask_row_lookup (row : list Z) (_len : Z) (j : nat) :
  (1 <= _len)%Z ->
  mask_row row _len !! j
  = if (j <? length row - Z.to_nat _len)%nat then Some ignore_index
    else row !! j.
Proof.
  intros Hlen. unfold mask_row, slice_stop.
  destruct (Z.ltb_spec (- _len) 0) as [_|]; [|lia].
  replace (Z.to_nat (Z.max 0 (Z.of_nat (length row) + - _len)))
    with (length row - Z.to_nat _len)%nat by lia.
  set (k := (length row - Z.to_nat _len)%nat).
  destruct (Nat.ltb_spec j k) as [Hj|Hj].
  - rewrite lookup_app_l by (rewrite repeat_length; exact Hj).
    apply lookup_repeat. exact Hj.
  - rewrite lookup_app_r by (rewrite repeat_length; exact Hj).
    rewrite repeat_length, lookup_drop. f_equal. lia.
Qed.

Lemma mask_loop_returns (i : nat) (lens : list Z) (rows : list (list Z)) :
  (i + length lens <= length rows)%nat ->
  exists rows',
    mask_loop i lens rows = Ok rows'
    /\ length rows' = length rows
    /\ forall k row,
         rows !! k = Some row ->
         rows' !! k
         = Some (if (i <=? k)%nat
                 then match lens !! (k - i)%nat with
                      | Some _len => mask_row row _len
                      | None => row
                      end
                 else row).
Proof.
  revert i rows; induction lens as [|_len lens IH]; intros i rows Hlen.
  - exists rows. split; [reflexivity|]. split; [reflexivity|].
    intros k row Hk. rewrite Hk. destruct (i <=? k)%nat; reflexivity.
  - simpl in Hlen. simpl.
    destruct (rows !! i) as [row_i|] eqn:Hi;
      [|apply lookup_ge_None in Hi; lia].
    destruct (IH (S i) (<[i := mask_row row_i _len]> rows))
      as (rows' & E & Hl & Hrows);
      [rewrite length_insert; lia|].
    exists rows'. split; [exact E|].
    split; [rewrite Hl; apply length_insert|].
    intros k row Hk.
    destruct (Nat.eq_dec k i) as [->|Hne].
    + rewrite (Hrows i (mask_row row_i _len))
        by (apply list_lookup_insert_eq; apply lookup_lt_Some in Hi;
            exact Hi).
      rewrite Hi in Hk. injection Hk as <-.
      rewrite (proj2 (Nat.leb_gt (S i) i)) by lia.
      rewrite Nat.leb_refl, Nat.sub_diag. reflexivity.
    + rewrite (Hrows k row)
        by (rewrite list_lookup_insert_ne by congruence; exact Hk).
      destruct (Nat.leb_spec (S i) k) as [H1|H1];
        destruct (Nat.leb_spec i k) as [H2|H2]; try lia; [|reflexivity].
      replace (k - i)%nat with (S (k - S i)) by lia. reflexivity.
Qed.

Lemma mask_loop_raises (i : nat) (lens : list Z) (rows : list (list Z)) :
  (i <= length rows < i + length lens)%nat ->
  mask_loop i lens rows = Raise IndexError.
Proof.
  revert i rows; induction lens as [|_len lens IH]; intros i rows Hlen;
    simpl in *; [lia|].
  destruct (rows !! i) as [row_i|] eqn:Hi; [|reflexivity].
  apply lookup_lt_Some in Hi. apply IH. rewrite length_insert. lia.
Qed.

(** X24. The labels of the loss.  With at most one option length per
    sequence the labels are returned, and [IndexError] is raised with
    more.  For a sequence with an option length of at least 1, the label
    at a position is the next token of the sequence if the position is
    among the last [option_len] ones and the token is not the padding
    token, and [-100] otherwise.  An option length of 0 masks nothing. *)
Theorem option_len_labels (pad_token_id : Z) (input_ids : list (list Z))
    (option_len : list Z) :
  let pad t := if (t =? pad_token_id)%Z then ignore_index else t in
  ((length input_ids < length option_len)%nat ->
   shift_labels pad_token_id input_ids (Some option_len)
   = Raise IndexError)
  /\ ((length option_len <= length input_ids)%nat ->
      exists labels,
        shift_labels pad_token_id input_ids (Some option_len) = Ok labels
        /\ length labels = length input_ids
        /\ forall i ids _len,
             input_ids !! i = Some ids ->
             option_len !! i = Some _len ->
             exists row,
               labels !! i = Some row
               /\ length row = (length ids - 1)%nat
               /\ ((1 <= _len)%Z ->
                   forall j,
                     (j < length row)%nat ->
                     row !! j
                     = if (j <? length row - Z.to_nat _len)%nat
                       then Some ignore_index
                       else pad <$> ids !! S j)
               /\ (_len = 0%Z -> row = map pad (tail ids))).
Proof.
  intros pad. unfold shift_labels. split.
  - intros Hlen. apply mask_loop_raises.
    unfold shift. rewrite length_map. lia.
  - intros Hlen.
    destruct (mask_loop_returns 0 option_len
                (shift pad_token_id input_ids))
      as (labels & E & Hl & Hrows).
    { unfold shift. rewrite length_map. simpl. exact Hlen. }
    exists labels. split; [exact E|].
    split; [rewrite Hl; unfold shift; apply length_map|].
    intros i ids _len Hi Ho.
    assert (Hs : shift pad_token_id input_ids !! i
                 = Some (map pad (tail ids))).
    { unfold shift. rewrite list_lookup_fmap, Hi. reflexivity. }
    rewrite (Hrows i _ Hs). simpl. rewrite Nat.sub_0_r, Ho.
    eexists. split; [reflexivity|].
    assert (Hlm : forall l : list Z,
              length (mask_row l _len) = length l).
    { intros l. unfold mask_row.
      rewrite length_app, repeat_length, length_drop.
      unfold slice_stop. destruct (Z.ltb_spec (- _len) 0); lia. }
    assert (Htl : length (map pad (tail ids)) = (length ids - 1)%nat).
    { rewrite length_map. destruct ids; simpl; lia. }
    split; [rewrite Hlm; exact Htl|]. split.
    + intros H1 j Hj. rewrite mask_row_lookup by exact H1.
      rewrite Hlm. 
      destruct (j <? length (map pad (tail ids)) - Z.to_nat _len)%nat;
        [reflexivity|].
      rewrite list_lookup_fmap. destruct ids; reflexivity.
    + intros ->. unfold mask_row, slice_stop.
      change (- 0 <? 0)%Z with false. cbv iota.
      replace (Z.to_nat
                 (Z.min (- 0) (Z.of_nat (length (map pad (tail ids))))))
        with 0%nat by lia.
      reflexivity.
Qed.

End LabelsMore.

(** ** The further properties on the concrete environment *)

Section EstimatorMoreRuns.

Import MeZO.

Lemma zo_perturbations_compose_witness :
  named_parameters_to_optim
    (@zo_perturb_parameters Toy.torch Toy.numpy None (- (1))
       (zo_perturb_parameters None 1 (Toy.zo_trainer 1)))
  = named_parameters_to_optim (Toy.zo_trainer 1).
Proof.
  exact (proj2 (proj2 (@zo_perturbations_compose Toy.torch Toy.numpy
                         toy_torch_sized (Toy.zo_trainer 1) None 1 1))).
Defined.


Lemma zo_step_slope_witness :
  exists loss self',
    @zo_step Toy.torch Toy.numpy Toy.objective (Toy.zo_trainer 1) tt
    = Returned loss self'
    /\ projected_grad self' = 2.
Proof.
  destruct (@zo_step_cases Toy.torch Toy.numpy Toy.objective
              toy_torch_sized (Toy.zo_trainer 1) tt)
    as (s & _ & _ & _ & _ & _ & _ & Hstep).
  change ((gradient_accumulation_steps (args (Toy.zo_trainer 1)) =? 1)%Z)
    with true in Hstep.
  cbv iota in Hstep.
  eexists _, _. split; [exact Hstep|].
  apply (@zo_step_slope Toy.torch Toy.numpy Toy.objective toy_torch_sized
           (Toy.zo_trainer 1) _ tt _ 7 2 Hstep).
  - simpl. lra.
  - simpl. rewrite ?plus_IZR. lra.
  - simpl. rewrite ?plus_IZR. lra.
Defined.


End EstimatorMoreRuns.

Section ProjectionMoreRuns.

Import DiZO.

Lemma apply_constraints_radii_witness :
  (length (@nil R)
   < radii_needed (exclude_list (Toy.region "l2norm")) Toy.candidate
       (parameters Toy.anchor))%nat
  /\ apply_constraints (Toy.region "l2norm") Toy.candidate Toy.anchor []
       false false
     = Raise StopIteration.
Proof.
  assert (H : (length (@nil R)
               < radii_needed (exclude_list (Toy.region "l2norm"))
                   Toy.candidate (parameters Toy.anchor))%nat)
    by (unfold radii_needed; simpl; lia).
  split; [exact H|].
  exact (proj1 (apply_constraints_radii (Toy.region "l2norm")
                  Toy.candidate Toy.anchor [] false false) H).
Defined.

Lemma apply_constraints_cache_witness :
  Toy.projected "l2norm" Toy.candidate
  = Ok (Toy.ok_dizo (Toy.projected "l2norm" Toy.candidate),
        Toy.ok_model (Toy.projected "l2norm" Toy.candidate),
        Toy.ok_rest (Toy.projected "l2norm" Toy.candidate))
  /\ include_list (Toy.ok_dizo (Toy.projected "l2norm" Toy.candidate))
     = ["fc.weight"%string].
Proof.
  assert (Hok : Toy.projected "l2norm" Toy.candidate
                = Ok (Toy.ok_dizo (Toy.projected "l2norm" Toy.candidate),
                      Toy.ok_model (Toy.projected "l2norm" Toy.candidate),
                      Toy.ok_rest (Toy.projected "l2norm" Toy.candidate)))
    by reflexivity.
  split; [exact Hok|].
  exact (proj1 (apply_constraints_cache _ _ _ _ _ _ _ false false Hok)).
Defined.

Lemma reverse_constraints_keys_witness :
  (exists name,
     In name
       (included_names (exclude_list (Toy.region "l2norm")) Toy.candidate
          (parameters Toy.anchor))
     /\ alpha (Toy.region "l2norm") !! name = None)
  /\ reverse_constraints (Toy.region "l2norm") Toy.candidate Toy.anchor
     = Raise KeyError.
Proof.
  assert (H : exists name,
            In name
              (included_names (exclude_list (Toy.region "l2norm"))
                 Toy.candidate (parameters Toy.anchor))
            /\ alpha (Toy.region "l2norm") !! name = None).
  { exists "fc.weight"%string. split; [left; reflexivity|reflexivity]. }
  split; [exact H|].
  exact (proj2 (reverse_constraints_keys (Toy.region "l2norm")
                  Toy.candidate Toy.anchor) H).
Defined.



End ProjectionMoreRuns.

Section AdaptationMoreRuns.

Import DiZO.

Lemma perturb_gamma_round_trip_witness :
  (length (constraints (Toy.region "l2norm")) <= length [1%R])%nat
  /\ exists s1 s2 s3 zs g1,
       @perturb_gamma Toy.torch (Toy.region "l2norm") 1 [1] None 0%Z
       = Ok (s1, zs, g1)
       /\ perturb_gamma s1 (-2) [] (Some zs) g1 = Ok (s2, zs, g1)
       /\ perturb_gamma s2 1 [] (Some zs) g1 = Ok (s3, zs, g1)
       /\ constraints s3 = constraints (Toy.region "l2norm").
Proof.
  assert (H : (length (constraints (Toy.region "l2norm"))
               <= length [1%R])%nat) by (simpl; lia).
  split; [exact H|].
  destruct (@perturb_gamma_round_trip Toy.torch (Toy.region "l2norm") [1%R]
              0%Z H)
    as (s1 & s2 & s3 & zs & g1 & E1 & E2 & E3 & Hc & _).
  exists s1, s2, s3, zs, g1. auto.
Defined.

Lemma zo_forward_radii_count_witness :
  (radii_needed
     (exclude_list (with_constraints (Toy.region "l2norm") [1%R; 2%R]))
     Toy.candidate (parameters Toy.anchor)
   < length (constraints (with_constraints (Toy.region "l2norm") [1%R; 2%R])))%nat
  /\ @zo_forward Toy.torch Toy.flat_objective
       (with_constraints (Toy.region "l2norm") [1%R; 2%R]) Toy.candidate
       Toy.anchor (Some tt) false 0%Z
     = Raise IndexError.
Proof.
  assert (H : (radii_needed
                 (exclude_list
                    (with_constraints (Toy.region "l2norm") [1%R; 2%R]))
                 Toy.candidate (parameters Toy.anchor)
               < length
                   (constraints
                      (with_constraints (Toy.region "l2norm") [1%R; 2%R])))%nat)
    by (unfold radii_needed; simpl; lia).
  split; [exact H|].
  exact (proj1 (proj2 (@zo_forward_radii_count Toy.torch Toy.flat_objective
                         (with_constraints (Toy.region "l2norm") [1%R; 2%R])
                         Toy.candidate Toy.anchor tt 0%Z)) H).
Defined.

Lemma new_dizo_radii_witness :
  constraints_name (Toy.region "l2norm") = ["fc.weight"%string]
  /\ Forall (fun gamma => gamma = 0) (constraints (Toy.region "l2norm")).
Proof.
  destruct (new_dizo_radii Toy.anchor "l2norm" ["fc.bias"%string])
    as (Hn & _ & Hz & _).
  split; [exact Hn|exact Hz].
Defined.


End AdaptationMoreRuns.

Section SetupMoreRuns.

Import Loop Setup.

Lemma running_loss_poisoned_witness :
  isnan PInf || isinf PInf = true
  /\ isnan
       (tr_loss
          (accumulate_loss true false
             {| tr_loss := PInf; global_step := 3;
                _globalstep_last_logged := 1 |} (Finite 1)))
     || isinf
          (tr_loss
             (accumulate_loss true false
                {| tr_loss := PInf; global_step := 3;
                   _globalstep_last_logged := 1 |} (Finite 1)))
     = true.
Proof.
  split; [reflexivity|].
  exact (proj1 (running_loss_poisoned true false
                  {| tr_loss := PInf; global_step := 3;
                     _globalstep_last_logged := 1 |} (Finite 1))
           eq_refl).
Defined.

Lemma training_steps_epochs_witness :
  (0 < 7)%Z
  /\ exists s,
       training_steps (Some 10%Z) 3 7 1 = inr s
       /\ num_update_steps_per_epoch s = 3%Z
       /\ num_train_epochs s = 3%Z.
Proof.
  assert (H : (0 < 7)%Z) by lia.
  split; [exact H|].
  destruct (proj2 (training_steps_epochs 10 3 7 1 H))
    as (s & E & Hm & Hn & Hb); [lia|].
  exists s. split; [exact E|].
  change (Z.max (10 / 3) 1) with 3%Z in Hn. rewrite Hn, Hm in Hb.
  split; [exact Hn|lia].
Defined.

Lemma update_steps_per_epoch_witness :
  (1 <= 7)%nat
  /\ (1 <= 3)%Z
  /\ Z.of_nat (length (update_steps 7 3)) = 2%Z
  /\ ~ In 6%nat (update_steps 7 3).
Proof.
  assert (H1 : (1 <= 7)%nat) by lia.
  assert (H2 : (1 <= 3)%Z) by lia.
  split; [exact H1|]. split; [exact H2|].
  destruct (update_steps_per_epoch 7 3 5 1
              {| max_steps := 5; num_train_epochs := 3;
                 num_update_steps_per_epoch := 2 |} H1 H2 eq_refl)
    as [Hn Hlast].
  split; [exact Hn|]. apply Hlast; [lia|discriminate].
Defined.

Lemma lr_factor_range_witness :
  (0 <= 50 <= 100)%Z
  /\ exists f',
       lr_lambda 100 100 = inr f' /\ f' = 1 / 2.
Proof.
  assert (H : (0 <= 50 <= 100)%Z) by lia.
  split; [exact H|].
  destruct (proj2 (lr_factor_range 50 100 100 H))
    as (f & f' & _ & E & Hpos & _); [lia|].
  exists f'. split; [exact E|].
  destruct Hpos as (_ & _ & Hlast); [lia|].
  apply Hlast. reflexivity.
Defined.

Lemma resume_position_adds_up_witness :
  (0 <= 7)%Z /\ (0 < 3)%Z /\ (0 < 2)%Z
  /\ exists epochs_trained steps_trained,
       resume_position 7 3 2 false = inr (epochs_trained, steps_trained)
       /\ (epochs_trained * (3 * 2) + steps_trained = 7 * 2)%Z.
Proof.
  assert (H1 : (0 <= 7)%Z) by lia.
  assert (H2 : (0 < 3)%Z) by lia.
  assert (H3 : (0 < 2)%Z) by lia.
  split; [exact H1|]. split; [exact H2|]. split; [exact H3|].
  destruct (resume_position_adds_up 7 3 2 H1 H2 H3)
    as (e & s & E & _ & Hsum & _).
  exists e, s. split; [exact E|exact Hsum].
Defined.

End SetupMoreRuns.

Section SelectionMoreRuns.

Import DiZO Setup.

Lemma select_parameters_spec_witness :
  List.filter (fun np => requires_grad (snd np)) [Toy.frozen "w" [[1]]] = []
  /\ select_parameters [Toy.frozen "w" [[1]]] [] = Raise IndexError.
Proof.
  split; [reflexivity|].
  exact (proj1 (select_parameters_spec [Toy.frozen "w" [[1]]] []) eq_refl).
Defined.


End SelectionMoreRuns.

Section FirstOrderMoreRuns.

Import DiZO FirstOrder.


Lemma dizo_iters_raises_witness :
  (1 <= max_iters Toy.tuner)%Z
  /\ pgmloader Toy.tuner <> []
  /\ @dizo_iters Toy.flat_objective Toy.optimizer Toy.tuner
       (Toy.solo [[3; 4]]) (Toy.solo [[0; 0]]) false false
     = Raise TypeError.
Proof.
  assert (H1 : (1 <= max_iters Toy.tuner)%Z) by (simpl; lia).
  assert (H2 : pgmloader Toy.tuner <> []) by discriminate.
  split; [exact H1|]. split; [exact H2|].
  exact (proj2 (@dizo_iters_raises Toy.flat_objective Toy.optimizer
                  Toy.tuner (Toy.solo [[3; 4]]) (Toy.solo [[0; 0]]) false
                  H1) H2).
Defined.

Lemma dizo_iters_never_adapts_witness :
  exists self' m',
    @dizo_iters Toy.flat_objective Toy.optimizer Toy.tuner
      (Toy.solo [[3; 4]]) (Toy.solo [[0; 0]]) true false
    = Ok (self', m')
    /\ constraints (the_dizo self') = constraints (the_dizo Toy.tuner).
Proof.
  eexists _, _. split; [reflexivity|].
  exact (proj1 (proj2 (@dizo_iters_never_adapts Toy.flat_objective
                         Toy.optimizer Toy.tuner _ (Toy.solo [[3; 4]]) _
                         (Toy.solo [[0; 0]]) true false eq_refl))).
Defined.

End FirstOrderMoreRuns.

Section LabelsMoreRuns.

Import Labels.

Lemma option_len_labels_witness :
  (length [[5; 6; 7; 8]%Z] <= length [2%Z])%nat
  /\ exists labels,
       shift_labels 0 [[5; 6; 7; 8]%Z] (Some [2%Z]) = Ok labels
       /\ exists row,
            labels !! 0%nat = Some row
            /\ row !! 0%nat = Some ignore_index
            /\ row !! 1%nat = Some 7%Z.
Proof.
  assert (H : (length [[5; 6; 7; 8]%Z] <= length [2%Z])%nat)
    by (simpl; lia).
  split; [exact H|].
  destruct (proj2 (option_len_labels 0 [[5; 6; 7; 8]%Z] [2%Z]) H)
    as (labels & E & _ & Hrows).
  exists labels. split; [exact E|].
  destruct (Hrows 0%nat [5; 6; 7; 8]%Z 2%Z eq_refl eq_refl)
    as (row & Hrow & Hl & Hwin & _).
  exists row. split; [exact Hrow|].
  assert (H1 : (1 <= 2)%Z) by lia.
  split.
  - rewrite (Hwin H1 0%nat) by (rewrite Hl; simpl; lia).
    rewrite Hl. reflexivity.
  - rewrite (Hwin H1 1%nat) by (rewrite Hl; simpl; lia).
    rewrite Hl. reflexivity.
Defined.

End LabelsMoreRuns.
